(* ===================================================================== *)
(* SmoothGradInterpreterV2.interpret                                      *)
(* (src/interpretdl/interpreter/smooth_grad_v2.py)                        *)
(*                                                                        *)
(* A shallow embedding of the interpret method and the properties of its  *)
(* noise calibration, chunked gradient evaluation, error behaviour and    *)
(* leftover state.                                                        *)
(*                                                                        *)
(* Numbers: the float32 entries of the arrays are idealised as elements   *)
(* of an arbitrary real field F (exact arithmetic, no NaN or infinity).   *)
(* Where the rounding of float32 decides a property, the operation is     *)
(* also given on IEEE 754 binary32 values (np_mean0_f32, std_f32).        *)
(* Integers: n_samples and split are modelled as nat; a negative Python   *)
(* int takes the same branches as 0 here (range() of it is empty and      *)
(* split > 1 is false).                                                   *)
(* ===================================================================== *)

From Stdlib Require Import String BinPosDef.
From Stdlib Require SpecFloat.
From mathcomp Require Import boot order algebra.

Set Implicit Arguments.
Unset Strict Implicit.
Unset Printing Implicit Defensive.

Import Order.TTheory GRing.Theory Num.Theory.

Local Open Scope ring_scope.

(* --------------------------------------------------------------------- *)
(* Python exceptions and results                                          *)
(* --------------------------------------------------------------------- *)

(* An exception is identified by the name of its class and its message. *)
Record exn := Exn { exn_class : string; exn_msg : string }.

Definition AssertionError (msg : string) : exn := Exn "AssertionError" msg.
Definition ValueError (msg : string) : exn := Exn "ValueError" msg.
Definition IndexError (msg : string) : exn := Exn "IndexError" msg.
Definition UnboundLocalError (msg : string) : exn :=
  Exn "UnboundLocalError" msg.

Inductive result (A : Type) : Type :=
  | Ok (a : A)
  | Raise (e : exn).

Arguments Ok {A} a.
Arguments Raise {A} e.

Definition is_ok A (r : result A) : bool :=
  if r is Ok _ then true else false.

(* --------------------------------------------------------------------- *)
(* numpy arrays: a shape and a flat, row-major buffer                     *)
(* --------------------------------------------------------------------- *)

Section NdArray.

Variable F : realFieldType.

Record ndarray := NdArray { shape : seq nat; elems : seq F }.

(* The number of entries a shape announces. *)
Definition numel (sh : seq nat) : nat := foldr muln 1%N sh.


(* np.max / np.min of one sample over all of its axes; numpy raises
   ValueError on a zero-size array. *)
Definition np_max (xs : seq F) : result F :=
  if xs is x :: xs' then Ok (foldl Num.max x xs')
  else Raise (ValueError "zero-size array to reduction operation maximum which has no identity").

Definition np_min (xs : seq F) : result F :=
  if xs is x :: xs' then Ok (foldl Num.min x xs')
  else Raise (ValueError "zero-size array to reduction operation minimum which has no identity").

(* Elementwise sum of two arrays of one shape. *)
Definition zip_add (xs ys : seq F) : seq F :=
  [seq p.1 + p.2 | p <- zip xs ys].

Definition nd_add (a b : ndarray) : ndarray :=
  NdArray (shape a) (zip_add (elems a) (elems b)).

Definition nd_scale (c : F) (a : ndarray) : ndarray :=
  NdArray (shape a) [seq c * x | x <- elems a].

(* Channel c of a sample of shape (C, H, W): its H*W spatial positions. *)
Definition channel (a : ndarray) (c : nat) : seq F :=
  let hw := numel (behead (shape a)) in
  take hw (drop (c * hw)%N (elems a)).

(* np.mean(gradients, axis=0) over a batch held as the list of its
   entries along axis 0.  On an empty batch numpy yields NaN (and a
   warning); the field has no NaN, the empty array stands for it. *)
Definition np_mean0 (gs : seq ndarray) : ndarray :=
  if gs is g :: gs' then nd_scale ((size gs)%:R^-1) (foldl nd_add g gs')
  else NdArray [::] [::].

(* np.abs(a).sum(0) of a sample of shape (C, H, W): shape (H, W). *)
Definition abs_sum0 (a : ndarray) : ndarray :=
  let hw := numel (behead (shape a)) in
  NdArray (behead (shape a))
    [seq foldr +%R 0 [seq `|nth 0 (elems a) (c * hw + p)%N|
                     | c <- iota 0 (head 0%N (shape a))]
    | p <- iota 0 hw].

End NdArray.

(* --------------------------------------------------------------------- *)
(* float32 as the code computes with it: IEEE 754 binary32                *)
(* --------------------------------------------------------------------- *)







(* Python sequence operations. *)
Definition slice (T : Type) (a b : nat) (xs : seq T) : seq T :=
  drop a (take b xs).

Definition np_repeat (T : Type) (xs : seq T) (k : nat) : seq T :=
  flatten [seq nseq k x | x <- xs].

(* The value of a loop variable after `for i in range(n)`: the last index
   visited, or the previous value when the body never ran. *)
Definition loop_var (i : option nat) (n : nat) : option nat :=
  last i [seq Some k | k <- iota 0 n].

(* --------------------------------------------------------------------- *)
(* The interpreter                                                        *)
(* --------------------------------------------------------------------- *)

Section Interpreter.

Variable F : realFieldType.
(* env: the state of everything outside the method (model runtime, random
   generator, display, file system); input, image, vis: the values the
   external collaborators exchange. *)
Variables env input image vis : Type.

Notation sample := (ndarray F).
Definition label := int.

(* An external call: may change the outside world and may raise. *)
Definition ext (A : Type) : Type := env -> result A * env.

(* The collaborators of interpret that live outside this module. *)
Record externals := Externals {
  images_transform_pipeline :
    input -> nat -> option nat -> ext (seq image * seq sample);
  _build_predict_fn : string -> ext unit;
  predict_fn : seq sample -> option (seq label) -> ext (seq sample * seq label);
  random_normal : F -> F -> seq nat -> ext (seq F);
  preprocess_save_path : option (seq string) -> nat -> ext (seq (option string));
  explanation_to_vis : image -> sample -> string -> ext vis;
  show_vis_explanation : vis -> ext unit;
  save_image : string -> vis -> ext unit
}.

(* What the method asks of the outside, in order. *)
Inductive event : Type :=
  | EvTransform (inputs : input) (resize_to : nat) (crop_to : option nat)
  | EvBuildPredictFn (gradient_of : string)
  | EvPredict (data : seq sample) (labels : option (seq label))
  | EvNormal (loc scale : F) (sz : seq nat)
  | EvSavePath (save_path : option (seq string)) (n : nat)
  | EvToVis (img : image) (explanation : sample) (style : string)
  | EvShow (v : vis)
  | EvSave (path : string) (v : vis).

Definition is_output (e : event) : bool :=
  match e with EvShow _ | EvSave _ _ => true | _ => false end.

(* The interpreter instance and the world around it. *)
Record state := State {
  world : env;
  trace : seq event;
  self_labels : option (seq label)
}.

Definition M (A : Type) : Type := state -> result A * state.

Definition ret A (a : A) : M A := fun s => (Ok a, s).

Definition bind A B (m : M A) (k : A -> M B) : M B :=
  fun s => match m s with
           | (Ok a, s') => k a s'
           | (Raise e, s') => (Raise e, s')
           end.

Definition raise A (e : exn) : M A := fun s => (Raise e, s).
Arguments raise {A} e.

Definition call A (ev : event) (f : ext A) : M A :=
  fun s => let: (r, w) := f (world s) in
           (r, State w (rcons (trace s) ev) (self_labels s)).

Definition set_self_labels (ls : seq label) : M unit :=
  fun s => (Ok tt, State (world s) (trace s) (Some ls)).

Notation "x <- m ;; k" := (bind m (fun x => k))
  (at level 61, m at next level, right associativity).
Notation "m ;;; k" := (bind m (fun _ => k))
  (at level 61, right associativity).

(* `for i in ks: a = body(i, a)` *)
Fixpoint for_in A (ks : seq nat) (body : nat -> A -> M A) (a : A) : M A :=
  if ks is i :: ks' then a' <- body i a ;; for_in ks' body a'
  else ret a.

(* `for x in xs` collecting one result per element (a comprehension). *)
Fixpoint for_each A B (xs : seq A) (body : A -> M B) : M (seq B) :=
  if xs is x :: xs' then
    y <- body x ;; ys <- for_each xs' body ;; ret (y :: ys)
  else ret [::].

(* `xs[i]` for the local variable i: unbound, in range or out of range. *)
Definition getitem A (xs : seq A) (i : option nat) : M A :=
  match i with
  | None => raise (UnboundLocalError "local variable 'i' referenced before assignment")
  | Some k =>
      match drop k xs with
      | x :: _ => ret x
      | [::] => raise (IndexError "index out of range")
      end
  end.

Variable X : externals.

Definition call_predict_fn (data : seq sample) (labels : option (seq label))
  : M (seq sample * seq label) :=
  call (EvPredict data labels) (predict_fn X data labels).

(* np.array(labels).reshape((1, )) *)
Definition reshape1 (labels : seq label) : M (seq label) :=
  if size labels == 1%N then ret labels
  else raise (ValueError "cannot reshape array into shape (1,)").

(* Lines 78-80: one standard deviation per entry of data along axis 0. *)
Definition std_of (noise_amount : F) (d : sample) : result F :=
  match np_max (elems d), np_min (elems d) with
  | Ok mx, Ok mn => Ok (noise_amount * (mx - mn))
  | Raise e, _ => Raise e
  | _, Raise e => Raise e
  end.

Fixpoint stds_of (noise_amount : F) (data : seq sample) : M (seq F) :=
  if data is d :: data' then
    match std_of noise_amount d with
    | Ok s => ss <- stds_of noise_amount data' ;; ret (s :: ss)
    | Raise e => raise e
    end
  else ret [::].

(* np.concatenate(arrays, axis=0) *)
Definition np_concatenate A (arrays : seq (seq A)) : M (seq A) :=
  if arrays is [::] then raise (ValueError "need at least one array to concatenate")
  else ret (flatten arrays).

(* Lines 84-88: the noise of one replica: for every entry d of data one
   draw of shape (1,) + d.shape at the std of that entry, the draws
   concatenated along axis 0. *)
Definition draw_noise (data : seq sample) (stds : seq F) : M (seq sample) :=
  draws <- for_each (zip stds data) (fun jd =>
      buf <- call (EvNormal 0 jd.1 (1%N :: shape jd.2))
                  (random_normal X 0 jd.1 (1%N :: shape jd.2)) ;;
      ret [:: NdArray (shape jd.2) buf]) ;;
  np_concatenate draws.

(* data + noise, entry by entry along axis 0. *)
Definition batch_add (data noise : seq sample) : seq sample :=
  [seq nd_add p.1 p.2 | p <- zip data noise].

(* Lines 82-91. *)
Definition noised_batch (data : seq sample) (stds : seq F) (n_samples : nat)
  : M (seq sample) :=
  data_noised <- for_in (iota 0 n_samples) (fun _ data_noised =>
      noise <- draw_noise data stds ;;
      ret (rcons data_noised (batch_add data noise))) [::] ;;
  np_concatenate data_noised.

(* Lines 96-107: the gradients of the noised batch, and the local variable
   i as the chunk loop leaves it. *)
Definition gradients_of (data_noised : seq sample) (labels : seq label)
    (n_samples split : nat) (i : option nat) : M (seq sample * option nat) :=
  if (1 < split)%N then
    let chunk := (n_samples %/ split)%N in
    gradient_chunks <- for_in (iota 0 (split - 1)) (fun i gradient_chunks =>
        gp <- call_predict_fn (slice (i * chunk) ((i + 1) * chunk) data_noised)
                              (Some (np_repeat labels chunk)) ;;
        ret (rcons gradient_chunks gp.1)) [::] ;;
    gp <- call_predict_fn (drop (chunk * (split - 1)) data_noised)
            (Some (np_repeat labels (n_samples - chunk * (split - 1)))) ;;
    gradients <- np_concatenate (rcons gradient_chunks gp.1) ;;
    ret (gradients, loop_var i (split - 1))
  else
    gp <- call_predict_fn data_noised (Some (np_repeat labels n_samples)) ;;
    ret (gp.1, i).

(* Lines 111-121. *)
Definition visualize (imgs : seq image) (avg_gradients : seq sample)
    (i : option nat) (visual : bool) (save_path : option (seq string))
  : M unit :=
  if ~~ save_path && ~~ visual then ret tt
  else
    save_path <- call (EvSavePath save_path 1) (preprocess_save_path X save_path 1) ;;
    img <- getitem imgs i ;;
    g0 <- getitem avg_gradients (Some 0%N) ;;
    vis_explanation <-
      call (EvToVis img (abs_sum0 g0) "overlay_grayscale")
           (explanation_to_vis X img (abs_sum0 g0) "overlay_grayscale") ;;
    (if visual then call (EvShow vis_explanation)
                         (show_vis_explanation X vis_explanation)
     else ret tt) ;;;
    p <- getitem save_path i ;;
    if p is Some path then call (EvSave path vis_explanation)
                                (save_image X path vis_explanation)
    else ret tt.

(* Lines 63-91: preprocessing, the batch-size assertion, label resolution
   and the noised batch. *)
Definition prepare (inputs : input) (labels : option (seq label))
    (noise_amount : F) (n_samples resize_to : nat) (crop_to : option nat)
  : M (seq image * seq label * seq sample) :=
  pipeline <- call (EvTransform inputs resize_to crop_to)
                   (images_transform_pipeline X inputs resize_to crop_to) ;;
  let: (imgs, data) := pipeline in
  (if size data == 1%N then ret tt
   else raise (AssertionError "interpret each sample individually, it is optimized.")) ;;;
  call (EvBuildPredictFn "probability") (_build_predict_fn X "probability") ;;;
  labels <- (if labels is Some ls then ret ls
             else gp <- call_predict_fn data None ;; ret gp.2) ;;
  labels <- reshape1 labels ;;
  stds <- stds_of noise_amount data ;;
  data_noised <- noised_batch data stds n_samples ;;
  ret (imgs, labels, data_noised).

(* Lines 63-109: everything up to the averaged gradients; the local
   variable i is what the two loops over it leave behind. *)
Definition smooth_grad (inputs : input) (labels : option (seq label))
    (noise_amount : F) (n_samples split resize_to : nat) (crop_to : option nat)
  : M (seq image * seq label * seq sample * option nat) :=
  p <- prepare inputs labels noise_amount n_samples resize_to crop_to ;;
  let: (imgs, labels, data_noised) := p in
  gi <- gradients_of data_noised labels n_samples split (loop_var None n_samples) ;;
  let avg_gradients := [:: np_mean0 gi.1] in
  ret (imgs, labels, avg_gradients, gi.2).

Definition interpret (inputs : input) (labels : option (seq label))
    (noise_amount : F) (n_samples split resize_to : nat) (crop_to : option nat)
    (visual : bool) (save_path : option (seq string)) : M (seq sample) :=
  r <- smooth_grad inputs labels noise_amount n_samples split resize_to crop_to ;;
  let: (imgs, labels, avg_gradients, i) := r in
  visualize imgs avg_gradients i visual save_path ;;;
  set_self_labels labels ;;;
  ret avg_gradients.

(* --------------------------------------------------------------------- *)
(* Reference view of the chunked evaluation, used to state properties     *)
(* --------------------------------------------------------------------- *)

(* The arguments of the calls to predict_fn that lines 96-107 plan, in
   order: the slices together with the label array each one is paired
   with. *)
Definition chunk_calls (data_noised : seq sample) (labels : seq label)
    (n_samples split : nat) : seq (seq sample * option (seq label)) :=
  if (1 < split)%N then
    let chunk := (n_samples %/ split)%N in
    rcons [seq (slice (i * chunk) ((i + 1) * chunk) data_noised,
                Some (np_repeat labels chunk)) | i <- iota 0 (split - 1)]
          (drop (chunk * (split - 1)) data_noised,
           Some (np_repeat labels (n_samples - chunk * (split - 1))))
  else [:: (data_noised, Some (np_repeat labels n_samples))].

(* Issuing a list of calls one after the other against the outside world,
   stopping at the first that raises: the gradients received, the world
   afterwards and the number of calls issued. *)
Fixpoint predict_all (cs : seq (seq sample * option (seq label))) (w : env)
  : result (seq (seq sample)) * env * nat :=
  if cs is c :: cs' then
    match predict_fn X c.1 c.2 w with
    | (Ok gp, w') =>
        let: (r, w'', k) := predict_all cs' w' in
        (if r is Ok gs then Ok (gp.1 :: gs) else r, w'', k.+1)
    | (Raise e, w') => (Raise e, w', 1%N)
    end
  else (Ok [::], w, 0%N).

Definition predict_events (cs : seq (seq sample * option (seq label)))
  : seq event :=
  [seq EvPredict c.1 c.2 | c <- cs].

(* The prediction function computes the gradient of every sample from that
   sample and its label alone, whatever the rest of the batch is. *)
Definition sample_wise (g : sample -> label -> sample) : Prop :=
  forall xs ls w, size ls = size xs ->
    exists ps w', predict_fn X xs (Some ls) w
                  = (Ok ([seq g p.1 p.2 | p <- zip xs ls], ps), w').

(* The gradient batch of a finished evaluation, if it returned one. *)
Definition gradient_batch (r : result (seq sample * option nat) * state)
  : option (seq sample) :=
  if r.1 is Ok gi then Some gi.1 else None.

(* The events a computation added to the trace. *)
Definition issued (s s' : state) : seq event :=
  drop (size (trace s)) (trace s').

(* A call to predict_fn that pairs every sample of its batch with l. *)
Definition well_paired (l : label) (e : event) : bool :=
  if e is EvPredict xs (Some ls) then ls == nseq (size xs) l else false.

(* A call to predict_fn on an empty batch. *)
Definition zero_sized (e : event) : bool :=
  if e is EvPredict xs _ then nilp xs else false.

(* The batch and the label array a call to predict_fn was given. *)
Definition event_data (e : event) : seq sample :=
  if e is EvPredict xs _ then xs else [::].

Definition event_labels (e : event) : option (seq label) :=
  if e is EvPredict _ ls then ls else None.

(* Label resolution (lines 71-75) ends with the label l. *)
Definition resolves_to (data : seq sample) (labels : option (seq label))
    (l : label) : Prop :=
  match labels with
  | Some ls => ls = [:: l]
  | None => forall w, exists gs w',
              predict_fn X data None w = (Ok (gs, [:: l]), w')
  end.


(* A draw from the random generator around 0 with the given standard
   deviation and size. *)
Definition is_draw (std : F) (sz : seq nat) (e : event) : bool :=
  if e is EvNormal loc scale sz' then
    [&& loc == 0, scale == std & sz' == sz]
  else false.

(* A computation that leaves the instance attributes alone and only adds
   events satisfying p to the trace. *)
Definition emits (p : pred event) A (m : M A) : Prop :=
  forall s, exists2 evs, all p evs &
    (m s).2 = State (world (m s).2) (trace s ++ evs) (self_labels s).

(* A computation that shows and saves nothing. *)
Definition quiet A (m : M A) : Prop := emits (predC is_output) m.

(* The class of the exception a computation ended with, if it did. *)
Definition raised A (r : result A) : option string :=
  if r is Raise e then Some (exn_class e) else None.

End Interpreter.

Arguments EvTransform {F input image vis}.
Arguments EvBuildPredictFn {F input image vis}.
Arguments EvPredict {F input image vis}.
Arguments EvNormal {F input image vis}.
Arguments EvSavePath {F input image vis}.
Arguments EvToVis {F input image vis}.
Arguments EvShow {F input image vis}.
Arguments EvSave {F input image vis}.
Arguments predict_events {F input image vis}.
Arguments is_output {F input image vis}.
Arguments zero_sized {F input image vis}.
Arguments event_data {F input image vis}.
Arguments event_labels {F input image vis}.
Arguments raise {F env input image vis A}.

Notation "x <- m ;; k" := (bind m (fun x => k))
  (at level 61, m at next level, right associativity).
Notation "m ;;; k" := (bind m (fun _ => k))
  (at level 61, right associativity).

(* The std the specification announces for channel c of a sample: the
   noise amount times the value range of that channel alone. *)
Definition channel_std (F : realFieldType) (noise_amount : F)
    (d : ndarray F) (c : nat) : result F :=
  match np_max (channel d c), np_min (channel d c) with
  | Ok mx, Ok mn => Ok (noise_amount * (mx - mn))
  | Raise e, _ => Raise e
  | _, Raise e => Raise e
  end.

(* The value of the local variable i when line 117 reads it: what the
   chunk loop left when it ran (split > 1), else what the noise loop left. *)
Definition leftover_index (n_samples split : nat) : nat :=
  if (1 < split)%N then (split - 2)%N else (n_samples - 1)%N.

(* --------------------------------------------------------------------- *)
(* Kinds of events, and what a computation logs                           *)
(* --------------------------------------------------------------------- *)

Section Events.

Variable F : realFieldType.
Variables env input image vis : Type.

Notation event := (event F input image vis).

(* Preprocessing, building and calling the model, drawing noise: all that
   a call without visualisation may ask of the outside. *)
Definition is_compute (e : event) : bool :=
  match e with
  | EvTransform _ _ _ | EvBuildPredictFn _ | EvPredict _ _ | EvNormal _ _ _ =>
      true
  | _ => false
  end.

Definition is_show (e : event) : bool :=
  if e is EvShow _ then true else false.

Definition is_save (e : event) : bool :=
  if e is EvSave _ _ then true else false.

(* A call of predict_fn for gradients (labels given) and one for the
   prediction of the label (labels None). *)
Definition is_gradient_call (e : event) : bool :=
  if e is EvPredict _ (Some _) then true else false.

Definition is_resolution_call (e : event) : bool :=
  if e is EvPredict _ None then true else false.

Definition is_normal (e : event) : bool :=
  if e is EvNormal _ _ _ then true else false.

(* What np.random.normal accepts: a draw around 0 whose scale is not
   negative; every other event passes. *)
Definition draw_scale_ok (e : event) : bool :=
  if e is EvNormal loc scale _ then (loc == 0) && (0 <= scale) else true.

(* A computation that only adds events satisfying p to the trace; it may
   set instance attributes. *)
Definition logs (p : pred event) A (m : M F env input image vis A) : Prop :=
  forall s, exists2 evs, all p evs & trace (m s).2 = trace s ++ evs.

End Events.

Arguments is_compute {F input image vis}.
Arguments is_show {F input image vis}.
Arguments is_save {F input image vis}.
Arguments is_gradient_call {F input image vis}.
Arguments is_resolution_call {F input image vis}.
Arguments draw_scale_ok {F input image vis}.
Arguments is_normal {F input image vis}.

(* --------------------------------------------------------------------- *)
(* A concrete small world over the rationals, to run the method on        *)
(* --------------------------------------------------------------------- *)

(* gradient = input * 0 + label value, for every sample. *)
Definition demo_grad (x : ndarray rat) (l : label) : ndarray rat :=
  NdArray (shape x) [seq e * 0 + l%:~R | e <- elems x].

(* The outside world is a counter of the calls that reached the model and
   the random generator; inputs are arrays already read, an image is named
   by its position, a rendering by the image it shows. *)
Definition demo_predict_fn (xs : seq (ndarray rat)) (ls : option (seq label))
  : ext nat (seq (ndarray rat) * seq label) :=
  fun w =>
    (Ok (if ls is Some ls' then [seq demo_grad p.1 p.2 | p <- zip xs ls']
         else xs,
         nseq (size xs) (7 : int)), w.+1).

(* A model that runs out of memory on batches of more than two samples. *)
Definition oom_predict_fn (xs : seq (ndarray rat)) (ls : option (seq label))
  : ext nat (seq (ndarray rat) * seq label) :=
  fun w =>
    if (2 < size xs)%N then (Raise (Exn "RuntimeError" "out of memory"), w.+1)
    else demo_predict_fn xs ls w.

Definition demo_with predict
  : externals rat nat (seq (ndarray rat)) nat nat :=
  {| images_transform_pipeline := fun inputs _ _ w =>
       (Ok (iota 0 (size inputs), inputs), w);
     _build_predict_fn := fun _ w => (Ok tt, w);
     predict_fn := predict;
     random_normal := fun loc scale sz w =>
       (Ok (nseq (numel sz) (loc + scale)), w.+1);
     preprocess_save_path := fun sp n w =>
       (Ok (if sp is Some ps then [seq Some q | q <- ps] else nseq n None), w);
     explanation_to_vis := fun img _ _ w => (Ok img, w);
     show_vis_explanation := fun _ w => (Ok tt, w);
     save_image := fun _ _ w => (Ok tt, w) |}.

Definition demo := demo_with demo_predict_fn.
Definition demo_oom := demo_with oom_predict_fn.

Definition demo_state : state rat nat (seq (ndarray rat)) nat nat :=
  State 0%N [::] None.

(* A sample of shape (2, 1, 2): channel 0 holds 0 and 1, channel 1 holds
   5 and 5. *)
Definition demo_sample : ndarray rat :=
  NdArray [:: 2%N; 1%N; 2%N] [:: 0; 1; 5; 5].

(* Five distinguishable replicas. *)
Definition demo_batch : seq (ndarray rat) :=
  [seq NdArray [:: 1%N; 1%N; 1%N] [:: k%:R] | k <- iota 0 5].

(* --------------------------------------------------------------------- *)
(* Generic facts: sequences, arithmetic of the chunk size                 *)
(* --------------------------------------------------------------------- *)

Section Chunks.

Variable T : Type.
Implicit Types (xs : seq T) (c k n : nat).

Lemma flatten_slices xs c k :
  flatten [seq slice (i * c) ((i + 1) * c) xs | i <- iota 0 k]
  = take (k * c) xs.
Proof.
elim: k => [|k IH]; first by rewrite mul0n take0.
rewrite -[k.+1]addn1 iotaD add0n map_cat flatten_cat IH /= cats0 /slice.
rewrite -[RHS](cat_take_drop (k * c) (take ((k + 1) * c) xs)).
congr (_ ++ _); rewrite -take_min (minn_idPl _) //.
by rewrite leq_mul2r leq_addr orbT.
Qed.

Lemma size_slice xs c i :
  ((i + 1) * c <= size xs)%N -> size (slice (i * c) ((i + 1) * c) xs) = c.
Proof.
move=> le; rewrite /slice size_drop size_takel // mulnDl mul1n.
by rewrite addnC addnK.
Qed.

Lemma np_repeat1 (x : T) k : np_repeat [:: x] k = nseq k x.
Proof. by rewrite /np_repeat /= cats0. Qed.

Lemma map_const_nseq U (y : U) xs : [seq y | _ <- xs] = nseq (size xs) y.
Proof. by elim: xs => //= _ xs ->. Qed.

End Chunks.

Lemma chunk_front_le n s : (n %/ s * (s - 1) <= n)%N.
Proof.
apply: leq_trans (leq_trunc_div n s).
by rewrite leq_mul2l leq_subr orbT.
Qed.

Lemma chunk_tail_ge n s : (0 < s)%N -> (n %/ s <= n - n %/ s * (s - 1))%N.
Proof.
move=> s0; rewrite leq_subRL ?chunk_front_le // -mulnSr subn1 prednK //.
exact: leq_trunc_div.
Qed.


(* --------------------------------------------------------------------- *)
(* Arrays over a real field                                               *)
(* --------------------------------------------------------------------- *)

Section Arrays.

Variable F : realFieldType.
Implicit Types (x y : F) (xs : seq F) (a g : ndarray F).

Lemma foldl_maxP x xs :
  foldl Num.max x xs \in x :: xs
  /\ (forall y, y \in x :: xs -> y <= foldl Num.max x xs).
Proof.
elim: xs x => [|z xs IH] x /=.
  by rewrite mem_seq1 eqxx; split=> // y; rewrite mem_seq1 => /eqP ->.
have [mem ub] := IH (Num.max x z); split.
  move: mem; rewrite !in_cons; case/orP=> [/eqP ->|->]; last by rewrite !orbT.
  by case: (leP x z) => _; rewrite eqxx ?orbT.
move=> y; rewrite !in_cons orbA => /orP [xz|yxs]; last first.
  by apply: ub; rewrite in_cons yxs orbT.
apply: le_trans (ub _ (mem_head _ _)).
by rewrite le_max; case/orP: xz => /eqP ->; rewrite lexx ?orbT.
Qed.

Lemma foldl_minP x xs :
  foldl Num.min x xs \in x :: xs
  /\ (forall y, y \in x :: xs -> foldl Num.min x xs <= y).
Proof.
elim: xs x => [|z xs IH] x /=.
  by rewrite mem_seq1 eqxx; split=> // y; rewrite mem_seq1 => /eqP ->.
have [mem lb] := IH (Num.min x z); split.
  move: mem; rewrite !in_cons; case/orP=> [/eqP ->|->]; last by rewrite !orbT.
  by case: (leP x z) => _; rewrite eqxx ?orbT.
move=> y; rewrite !in_cons orbA => /orP [xz|yxs]; last first.
  by apply: lb; rewrite in_cons yxs orbT.
apply: le_trans (lb _ (mem_head _ _)) _.
by rewrite ge_min; case/orP: xz => /eqP ->; rewrite lexx ?orbT.
Qed.

(* On a non-empty sample the std is the noise amount times the spread
   between its largest and its smallest entry, channels together. *)
Lemma std_ofP (noise_amount : F) a :
  (0 < size (elems a))%N ->
  exists mx mn,
    [/\ mx \in elems a /\ (forall y, y \in elems a -> y <= mx),
        mn \in elems a /\ (forall y, y \in elems a -> mn <= y)
      & std_of noise_amount a = Ok (noise_amount * (mx - mn))].
Proof.
rewrite /std_of; case: (elems a) => [|x xs] //= _.
by exists (foldl Num.max x xs), (foldl Num.min x xs); split=> //;
  [apply: foldl_maxP | apply: foldl_minP].
Qed.




Lemma zip_add_map (f : F -> F) xs :
  zip_add [seq f x | x <- xs] xs = [seq f x + x | x <- xs].
Proof. by rewrite /zip_add; elim: xs => //= x xs ->. Qed.

Lemma foldl_nd_add_nseq g m k :
  foldl (@nd_add F) (NdArray (shape g) [seq x *+ m | x <- elems g]) (nseq k g)
  = NdArray (shape g) [seq x *+ (m + k) | x <- elems g].
Proof.
elim: k m => [|k IH] m /=; first by rewrite addn0.
have -> : nd_add (NdArray (shape g) [seq x *+ m | x <- elems g]) g
          = NdArray (shape g) [seq x *+ m.+1 | x <- elems g].
  rewrite /nd_add /= zip_add_map; congr NdArray.
  by apply: eq_map => x; rewrite mulrSr.
by rewrite IH addSnnS.
Qed.

(* In exact arithmetic the mean of n >= 1 copies of a gradient is that
   gradient; float32 rounds the sum and the quotient (np_mean0_f32). *)
Lemma np_mean0_nseq g n : (0 < n)%N -> np_mean0 (nseq n g) = g.
Proof.
case: n => // n _; rewrite /np_mean0 /= size_nseq.
have E1 : g = NdArray (shape g) [seq x *+ 1 | x <- elems g].
  case: g => sh es /=; congr NdArray.
  by rewrite -[LHS]map_id; apply: eq_map => x; rewrite mulr1n.
rewrite [X in foldl _ X _]E1 foldl_nd_add_nseq /nd_scale /= -map_comp add1n.
rewrite [RHS]E1; congr NdArray; apply: eq_map => x /=.
by rewrite mulr1n -[x *+ _]mulr_natl mulKf // pnatr_eq0.
Qed.

End Arrays.

(* --------------------------------------------------------------------- *)
(* The chunk loop against its reference view                              *)
(* --------------------------------------------------------------------- *)

Section Evaluation.

Variable F : realFieldType.
Variables env input image vis : Type.
Variable X : externals F env input image vis.

Notation sample := (ndarray F).
Notation state := (state F env input image vis).
Notation call_args := (seq sample * option (seq label))%type.

Lemma state_eta (s : state) : State (world s) (trace s) (self_labels s) = s.
Proof. by case: s. Qed.

(* The accumulating loop issues exactly the calls predict_all issues. *)
Lemma for_in_predict (f : nat -> call_args) ks acc (s : state) :
  for_in ks (fun i gradient_chunks =>
               gp <- call_predict_fn X (f i).1 (f i).2 ;;
               ret (rcons gradient_chunks gp.1)) acc s
  = let: (r, w, k) := predict_all X [seq f i | i <- ks] (world s) in
    (if r is Ok gs then Ok (acc ++ gs) else r,
     State w (trace s ++ predict_events (take k [seq f i | i <- ks]))
           (self_labels s)).
Proof.
elim: ks acc s => [|i ks IH] acc s /=.
  by rewrite /ret !cats0 state_eta.
rewrite /bind /call_predict_fn /call.
case: (predict_fn X (f i).1 (f i).2 (world s)) => [[gp|e] w] /=; last first.
  by rewrite take0 /= cats1.
rewrite {}IH /=.
case: (predict_all X _ w) => [[r w'] k] /=.
by rewrite !cat_rcons; case: r => [gs|e] //; rewrite cat_rcons.
Qed.

Lemma np_concatenate_rcons A (gs : seq (seq A)) g (s : state) :
  np_concatenate (rcons gs g) s = (Ok (flatten (rcons gs g)), s).
Proof. by case: gs. Qed.

(* The number of calls issued: all of them when none raises. *)
Lemma predict_all_count (cs : seq call_args) w :
  ((predict_all X cs w).2 <= size cs)%N
  /\ (is_ok (predict_all X cs w).1.1 -> (predict_all X cs w).2 = size cs).
Proof.
elim: cs w => [|c cs IH] w //=.
case: (predict_fn X c.1 c.2 w) => [[gp|e] w'] //=.
case: (predict_all X cs w') (IH w') => [[r w''] k] /= [le_k ok_k].
by split=> //; case: r ok_k => //= gs ->.
Qed.

Lemma predict_all_rcons (cs : seq call_args) c w :
  predict_all X (rcons cs c) w
  = let: (r, w', k) := predict_all X cs w in
    match r with
    | Ok gs => match predict_fn X c.1 c.2 w' with
               | (Ok gp, w'') => (Ok (rcons gs gp.1), w'', k.+1)
               | (Raise e, w'') => (Raise e, w'', k.+1)
               end
    | Raise e => (Raise e, w', k)
    end.
Proof.
elim: cs w => [|c0 cs IH] w /=.
  by case: (predict_fn X c.1 c.2 w) => [[gp|e] w'].
case: (predict_fn X c0.1 c0.2 w) => [[gp0|e0] w0] //=.
rewrite {}IH; case: (predict_all X cs w0) => [[[gs|e] w'] k] //=.
by case: (predict_fn X c.1 c.2 w') => [[gp|e] w''].
Qed.

(* Lines 96-107 are: issue the planned calls in order, stop at the first
   that raises, concatenate what came back. *)
Lemma gradients_ofE data_noised labels n_samples split i (s : state) :
  gradients_of X data_noised labels n_samples split i s
  = let cs := chunk_calls data_noised labels n_samples split in
    let: (r, w, k) := predict_all X cs (world s) in
    (match r with
     | Ok gs => Ok (flatten gs,
                    if (1 < split)%N then loop_var i (split - 1) else i)
     | Raise e => Raise e
     end,
     State w (trace s ++ predict_events (take k cs)) (self_labels s)).
Proof.
rewrite /gradients_of /chunk_calls; case: ifP => _; last first.
  rewrite /bind /call_predict_fn /call /=.
  case: (predict_fn X _ _ _) => [[gp|e] w] /=; last by rewrite cats1.
  by rewrite /ret /= cats1 cats0.
set f := fun i : nat => (_, _); set c := (_, _).
rewrite /bind (for_in_predict f) /= predict_all_rcons.
case: (predict_all X _ _) (predict_all_count [seq f i | i <- iota 0 (split - 1)] (world s))
  => [[[gs|e] w] k] /= [le_k ok_k]; last first.
  by rewrite -cats1 takel_cat.
rewrite ok_k // /call_predict_fn /call /= take_size.
case: (predict_fn X _ _ w) => [[gp|e] w'] /=.
  rewrite -(size_rcons _ c) take_size /predict_events map_rcons -rcons_cat.
  by rewrite np_concatenate_rcons.
by rewrite -(size_rcons _ c) take_size /predict_events map_rcons -rcons_cat.
Qed.

Lemma issued_cat (s s' : state) evs :
  trace s' = trace s ++ evs -> issued s s' = evs.
Proof. by rewrite /issued => ->; rewrite drop_size_cat. Qed.

(* Whatever happens, the evaluation adds a prefix of the planned calls to
   the trace and touches no instance attribute. *)
Lemma gradients_of_trace data_noised labels n_samples split i (s : state) :
  let s' := (gradients_of X data_noised labels n_samples split i s).2 in
  let cs := chunk_calls data_noised labels n_samples split in
  exists2 k, (k <= size cs)%N &
    issued s s' = predict_events (take k cs)
    /\ self_labels s' = self_labels s.
Proof.
rewrite gradients_ofE /=.
case: (predict_all X _ _) (predict_all_count
   (chunk_calls data_noised labels n_samples split) (world s))
  => [[r w] k] /= [le_k _].
by exists k => //; split=> //; apply: issued_cat.
Qed.

Lemma gradients_of_ok data_noised labels n_samples split i (s s' : state) r :
  gradients_of X data_noised labels n_samples split i s = (Ok r, s') ->
  issued s s' = predict_events (chunk_calls data_noised labels n_samples split).
Proof.
rewrite gradients_ofE /=.
case: (predict_all X _ _) (predict_all_count
   (chunk_calls data_noised labels n_samples split) (world s))
  => [[[gs|e] w] k] //= [_ ->] // [_ <-].
by rewrite take_size; apply: issued_cat.
Qed.

(* The planned slices cover the batch once, in order. *)
Lemma chunk_calls_data (dn : seq sample) labels N S :
  flatten [seq c.1 | c <- chunk_calls dn labels N S] = dn.
Proof.
rewrite /chunk_calls; case: ifP => _ /=; last by rewrite cats0.
rewrite map_rcons -map_comp -cats1 flatten_cat /= cats0.
rewrite (@eq_map _ _ _ (fun j => slice (j * (N %/ S)) ((j + 1) * (N %/ S)) dn)) //.
by rewrite flatten_slices mulnC cat_take_drop.
Qed.

(* Every planned call pairs each of its samples with the label. *)
Lemma chunk_calls_paired (dn : seq sample) (l : label) N S :
  size dn = N ->
  all (fun c => c.2 == Some (nseq (size c.1) l)) (chunk_calls dn [:: l] N S).
Proof.
move=> szN; rewrite /chunk_calls; case: ifP => _ /=.
  rewrite all_rcons /= !np_repeat1 size_drop szN eqxx /=.
  rewrite all_map; apply/allP => j; rewrite mem_iota add0n => /andP [_ ltj] /=.
  rewrite size_slice // szN; apply: leq_trans (chunk_front_le N S).
  by rewrite mulnC leq_mul2l addn1 ltj orbT.
by rewrite np_repeat1 szN eqxx.
Qed.

(** C3 (chunking policy).  When the evaluation of a batch of N samples
    returns: for a split factor S with 2 <= S <= N the calls to the
    prediction function are exactly S, the first S-1 on the consecutive
    slices [j*chunk, (j+1)*chunk) of exactly chunk = N // S samples each,
    in index order, the last on the remaining N - chunk*(S-1) >= chunk
    samples, and the S slices put end to end are the batch; for S = 1
    there is the single call on the whole batch. *)
Theorem chunking_policy (dn : seq sample) labels N S i (s s' : state) r :
  size dn = N ->
  gradients_of X dn labels N S i s = (Ok r, s') ->
  let chunk := (N %/ S)%N in
  let front := [seq slice (j * chunk) ((j + 1) * chunk) dn | j <- iota 0 (S - 1)] in
  let tail := drop (chunk * (S - 1)) dn in
  ((1 < S)%N -> (S <= N)%N ->
     [/\ issued s s'
          = rcons [seq EvPredict b (Some (np_repeat labels chunk)) | b <- front]
                  (EvPredict tail (Some (np_repeat labels (N - chunk * (S - 1))))),
         size (issued s s') = S,
         forall j, (j < S - 1)%N -> size (nth [::] front j) = chunk,
         size tail = (N - chunk * (S - 1))%N /\ (chunk <= size tail)%N
       & flatten (rcons front tail) = dn])
  /\ (S = 1%N -> issued s s' = [:: EvPredict dn (Some (np_repeat labels N))]).
Proof.
move=> szN /gradients_of_ok ev /=; split; last first.
  by move=> S1; rewrite ev S1.
move=> S1 leSN; have sz_tail : size (drop (N %/ S * (S - 1)) dn) = (N - N %/ S * (S - 1))%N.
  by rewrite size_drop szN.
have ev' : issued s s' = rcons
    [seq EvPredict b (Some (np_repeat labels (N %/ S)))
       | b <- [seq slice (j * (N %/ S)) ((j + 1) * (N %/ S)) dn
                 | j <- iota 0 (S - 1)]]
    (EvPredict (drop (N %/ S * (S - 1)) dn)
               (Some (np_repeat labels (N - N %/ S * (S - 1))))).
  by rewrite ev /chunk_calls S1 /predict_events map_rcons -!map_comp.
split=> //.
- by rewrite ev' size_rcons !size_map size_iota subn1 prednK // ltnW.
- move=> j ltj; rewrite (nth_map 0%N) ?size_iota // nth_iota // add0n.
  rewrite size_slice // szN; apply: leq_trans (chunk_front_le N S).
  by rewrite mulnC leq_mul2l addn1 ltj orbT.
- by split=> //; rewrite sz_tail; apply: chunk_tail_ge; apply: ltnW.
- by rewrite -cats1 flatten_cat /= cats0 flatten_slices mulnC cat_take_drop.
Qed.

Lemma all_predict_events (p : pred call_args) (q : pred (event F input image vis)) cs k :
  (forall c, p c -> q (EvPredict c.1 c.2)) ->
  all p cs -> all q (predict_events (take k cs)).
Proof.
move=> pq; rewrite -{1}(cat_take_drop k cs) all_cat => /andP [+ _].
by rewrite /predict_events all_map; apply: sub_all.
Qed.

(* Every call of the evaluation, whether it returns or not, pairs each
   sample of its slice with the label. *)
Lemma gradients_of_paired (dn : seq sample) (l : label) N S i (s : state) :
  size dn = N ->
  all (well_paired l) (issued s (gradients_of X dn [:: l] N S i s).2).
Proof.
move=> szN; have [k _ [-> _]] := gradients_of_trace dn [:: l] N S i s.
apply: all_predict_events (chunk_calls_paired l S szN).
by case=> xs [ls|].
Qed.

(** C4 (label broadcast).  During the evaluation of a batch of N samples
    for the resolved label l, every call to the prediction function,
    also in a run that a later call makes fail, receives l repeated
    exactly as many times as the slice it is called on has samples; in a
    run that returns, the label arrays are chunk = N // S copies of l for
    each of the S-1 front chunks and N - chunk*(S-1) copies for the last
    one when S > 1, and N copies in the unsplit case. *)
Theorem label_broadcast (dn : seq sample) (l : label) N S i (s : state) :
  size dn = N ->
  let run := gradients_of X dn [:: l] N S i s in
  let chunk := (N %/ S)%N in
  all (well_paired l) (issued s run.2)
  /\ (is_ok run.1 ->
      [seq event_labels e | e <- issued s run.2]
      = if (1 < S)%N
        then rcons (nseq (S - 1) (Some (nseq chunk l)))
                   (Some (nseq (N - chunk * (S - 1)) l))
        else [:: Some (nseq N l)]).
Proof.
move=> szN /=; split; first exact: gradients_of_paired.
case E: (gradients_of X dn [:: l] N S i s) => [[r|e] s'] //= _.
rewrite (gradients_of_ok E) /chunk_calls /predict_events.
case: ifP => _ /=; last by rewrite np_repeat1.
rewrite !map_rcons -!map_comp /= !np_repeat1; congr rcons.
by rewrite (@eq_map _ _ _ (fun=> Some (nseq (N %/ S) l))) // map_const_nseq size_iota.
Qed.

(* At least one call is issued when one is planned. *)
Lemma predict_all_pos (cs : seq call_args) w :
  (0 < size cs)%N -> (0 < (predict_all X cs w).2)%N.
Proof.
case: cs => [|c cs] //= _.
case: (predict_fn X c.1 c.2 w) => [[gp|e] w'] //=.
by case: (predict_all X cs w') => [[r w''] k].
Qed.

Lemma size_chunk_calls (dn : seq sample) labels N S :
  size (chunk_calls dn labels N S) = if (1 < S)%N then S else 1%N.
Proof.
rewrite /chunk_calls; case: ifP => S1 //.
by rewrite size_rcons size_map size_iota subn1 prednK // ltnW.
Qed.

(* In every run the calls issued are a non-empty prefix of the planned
   ones, and all of them when the run returns. *)
Lemma gradients_of_prefix (dn : seq sample) labels N S i (s : state) :
  let run := gradients_of X dn labels N S i s in
  let cs := chunk_calls dn labels N S in
  exists k, [/\ (0 < k)%N, (k <= size cs)%N,
                issued s run.2 = predict_events (take k cs)
              & is_ok run.1 -> k = size cs].
Proof.
rewrite gradients_ofE /=.
have pos : (0 < size (chunk_calls dn labels N S))%N.
  by rewrite size_chunk_calls; case: ifP => // /ltnW.
move: (predict_all_pos (world s) pos)
      (predict_all_count (chunk_calls dn labels N S) (world s)).
case: (predict_all X _ _) => [[r w] k] /= k0 [le_k ok_k]; exists k; split=> //.
  exact: issued_cat.
by case: r ok_k => // gs ok_k _; apply: ok_k.
Qed.

(** C7, as the code has it (empty chunks when N < S).  With fewer samples
    than the split factor S >= 2 the chunk size N // S is 0 and the empty
    leading chunks are not skipped: the plan is S-1 calls on an empty
    slice with an empty label array and then one call on all N samples
    with N copies of the label; in every run the calls issued are a
    non-empty prefix of this plan, so that the first call is always on an
    empty slice, and a run that returns has issued the whole plan. *)
Theorem empty_chunks_are_evaluated (dn : seq sample) (l : label) N S i
    (s : state) :
  size dn = N -> (N < S)%N -> (1 < S)%N ->
  let run := gradients_of X dn [:: l] N S i s in
  let plan := rcons (nseq (S - 1) (EvPredict [::] (Some [::])))
                    (EvPredict dn (Some (nseq N l))) in
  [/\ (N %/ S = 0)%N,
      exists k, [/\ (0 < k)%N, (k <= S)%N & issued s run.2 = take k plan],
      has zero_sized (issued s run.2)
    & is_ok run.1 -> issued s run.2 = plan].
Proof.
move=> szN ltNS S1 /=.
have planE : predict_events (chunk_calls dn [:: l] N S)
             = rcons (nseq (S - 1) (EvPredict [::] (Some [::])))
                     (EvPredict dn (Some (nseq N l))) :> seq (event F input image vis).
  rewrite /chunk_calls S1 divn_small //.
  rewrite /predict_events map_rcons -map_comp /= !np_repeat1 mul0n subn0 drop0.
  congr rcons.
  rewrite (@eq_map _ _ _ (fun=> EvPredict [::] (Some [::]))) ?map_const_nseq ?size_iota //.
  by move=> j /=; rewrite /slice !muln0 take0.
have [k [k0 le_k ev ok]] := gradients_of_prefix dn [:: l] N S i s.
move: le_k ok; rewrite size_chunk_calls S1 => le_k ok.
have evE : issued s (gradients_of X dn [:: l] N S i s).2
           = take k (rcons (nseq (S - 1) (EvPredict [::] (Some [::])))
                           (EvPredict dn (Some (nseq N l)))).
  by rewrite ev /predict_events map_take -/(predict_events _) planE.
split; first exact: divn_small.
- by exists k.
- rewrite evE; case: k k0 {le_k ok ev evE} => // k _.
  by rewrite -[(S - 1)%N]prednK ?subn_gt0.
- move=> /ok kS; rewrite evE kS take_oversize //.
  by rewrite size_rcons size_nseq subn1 prednK // ltnW.
Qed.

Lemma map_zip_nseq (g : sample -> label -> sample) (xs : seq sample) l :
  [seq g p.1 p.2 | p <- zip xs (nseq (size xs) l)] = [seq g x l | x <- xs].
Proof. by elim: xs => //= x xs ->. Qed.

(* A sample-wise prediction function answers every well-paired call, with
   the gradients of the samples in order. *)
Lemma predict_all_sample_wise g (l : label) (cs : seq call_args) w :
  sample_wise X g ->
  all (fun c => c.2 == Some (nseq (size c.1) l)) cs ->
  exists w', predict_all X cs w
             = (Ok [seq [seq g x l | x <- c.1] | c <- cs], w', size cs).
Proof.
move=> sw; elim: cs w => [|[xs ls] cs IH] w /=; first by exists w.
case/andP=> /eqP -> /IH {}IH.
have [ps [w1 ->]] := sw xs (nseq (size xs) l) w (size_nseq _ _).
by have [w' ->] := IH w1; exists w'; rewrite /= map_zip_nseq.
Qed.

Lemma gradients_of_sample_wise g (dn : seq sample) (l : label) N S i (s : state) :
  sample_wise X g -> size dn = N ->
  gradient_batch (gradients_of X dn [:: l] N S i s)
  = Some [seq g x l | x <- dn].
Proof.
move=> sw szN; rewrite gradients_ofE /=.
have [w' ->] := predict_all_sample_wise (world s) sw (chunk_calls_paired l S szN).
rewrite /gradient_batch /=; congr Some.
by rewrite -[in RHS](chunk_calls_data dn [:: l] N S) map_flatten -map_comp.
Qed.

(** C1 (chunk invariance).  For a prediction function that computes the
    gradient of each sample from that sample and its label alone, a
    batch of n_samples noised samples, a label l and every split factor
    k with 1 <= k <= n_samples: the chunked evaluation returns the same
    gradient batch as the single unsplit evaluation (split = 1), namely
    the gradient of every sample for l in batch order, hence the same
    mean; the slices it calls the prediction function on, put end to
    end, are the batch (nothing dropped, duplicated or reordered) and
    every call pairs each sample with l. *)
Theorem chunk_invariance g (dn : seq sample) (l : label) N k i (s : state) :
  sample_wise X g -> size dn = N -> (1 <= k <= N)%N ->
  let chunked := gradients_of X dn [:: l] N k i s in
  let unsplit := gradients_of X dn [:: l] N 1 i s in
  [/\ gradient_batch chunked = gradient_batch unsplit,
      gradient_batch chunked = Some [seq g x l | x <- dn],
      omap (@np_mean0 F) (gradient_batch chunked)
      = omap (@np_mean0 F) (gradient_batch unsplit),
      flatten [seq event_data e | e <- issued s chunked.2] = dn
    & all (well_paired l) (issued s chunked.2)].
Proof.
move=> sw szN _ /=.
have Hk := gradients_of_sample_wise l k i s sw szN.
have H1 := gradients_of_sample_wise l 1 i s sw szN.
split; rewrite ?Hk ?H1 //; last exact: gradients_of_paired.
case E: (gradients_of X dn [:: l] N k i s) Hk => [[r|e] s'] //= _.
rewrite (gradients_of_ok E) /predict_events -map_comp.
by rewrite -[RHS](chunk_calls_data dn [:: l] N k).
Qed.

End Evaluation.

(* --------------------------------------------------------------------- *)
(* What a computation may add to the trace                                *)
(* --------------------------------------------------------------------- *)

Section Emits.

Variable F : realFieldType.
Variables env input image vis : Type.

Notation state := (state F env input image vis).
Notation M := (M F env input image vis).
Notation event := (event F input image vis).

Variable p : pred event.

Lemma bind_ok A B (m : M A) (k : A -> M B) (s s' : state) b :
  (x <- m ;; k x) s = (Ok b, s') ->
  exists a s1, m s = (Ok a, s1) /\ k a s1 = (Ok b, s').
Proof.
by rewrite /bind; case: (m s) => [[a|e] s1] // H; exists a, s1.
Qed.

Lemma bind_raise A B (m : M A) (k : A -> M B) (s s' : state) e :
  m s = (Raise e, s') -> (x <- m ;; k x) s = (Raise e, s').
Proof. by rewrite /bind => ->. Qed.

Lemma bind_okE A B (m : M A) (k : A -> M B) (s s1 : state) a :
  m s = (Ok a, s1) -> (x <- m ;; k x) s = k a s1.
Proof. by rewrite /bind => ->. Qed.

Lemma emits_ret A (a : A) : emits p (ret a : M A).
Proof. by move=> s; exists [::] => //=; rewrite cats0 state_eta. Qed.

Lemma emits_raise A e : emits p (raise e : M A).
Proof. by move=> s; exists [::] => //=; rewrite cats0 state_eta. Qed.

Lemma emits_call A ev (f : ext env A) : p ev -> emits p (call ev f).
Proof.
move=> pe s; exists [:: ev]; first by rewrite /= pe.
by rewrite /call; case: (f _) => r w /=; rewrite cats1.
Qed.

Lemma emits_bind A B (m : M A) (k : A -> M B) :
  emits p m -> (forall a, emits p (k a)) -> emits p (x <- m ;; k x).
Proof.
move=> em ek s; have [evs1 p1] := em s.
rewrite /bind; case: (m s) => [[a|e] s1] /= E1; last by exists evs1.
have [evs2 p2 E2] := ek a s1; exists (evs1 ++ evs2); first by rewrite all_cat p1.
by rewrite E2 E1 /= catA.
Qed.

Lemma emits_for_in A ks (body : nat -> A -> M A) acc :
  (forall i a, emits p (body i a)) -> emits p (for_in ks body acc).
Proof.
move=> eb; elim: ks acc => [|i ks IH] acc /=; first exact: emits_ret.
exact: emits_bind.
Qed.

Lemma emits_for_each A B (xs : seq A) (body : A -> M B) :
  (forall x, emits p (body x)) -> emits p (for_each xs body).
Proof.
move=> eb; elim: xs => [|x xs IH] /=; first exact: emits_ret.
apply: emits_bind => // y; apply: emits_bind => // ys; exact: emits_ret.
Qed.

Lemma emits_np_concatenate A (arrays : seq (seq A)) :
  emits p (np_concatenate arrays : M _).
Proof. by case: arrays => [|a l]; [apply: emits_raise | apply: emits_ret]. Qed.

Lemma emits_issued A (m : M A) (s : state) :
  emits p m -> all p (issued s (m s).2) /\ self_labels (m s).2 = self_labels s.
Proof.
move=> em; have [evs pe E] := em s.
by rewrite E /=; rewrite (@issued_cat _ _ _ _ _ s _ evs).
Qed.

End Emits.

(* From `(x <- m ;; k x) s = (Ok b, s')` on top of the goal to the two
   runs it is made of. *)
Ltac inv_bind :=
  let H := fresh "Hbind" in move=> H; move: (bind_ok H) => {H}.

(* --------------------------------------------------------------------- *)
(* The method as a whole                                                  *)
(* --------------------------------------------------------------------- *)

Section Method.

Variable F : realFieldType.
Variables env input image vis : Type.
Variable X : externals F env input image vis.

Notation sample := (ndarray F).
Notation state := (state F env input image vis).
Notation M := (M F env input image vis).
Notation event := (event F input image vis).

Lemma quiet_reshape1 ls : quiet (reshape1 ls : M _).
Proof. rewrite /reshape1; case: ifP => _; [exact: emits_ret | exact: emits_raise]. Qed.

Lemma emits_stds_of (p : pred event) na (data : seq sample) :
  emits p (stds_of na data : M _).
Proof.
elim: data => [|d data IH] /=; first exact: emits_ret.
case: (std_of na d) => [sd|e]; last exact: emits_raise.
by apply: emits_bind => // ss; apply: emits_ret.
Qed.

(* Every draw of the noise loop is one call for the whole of the sample,
   at the standard deviation of that sample. *)
Lemma emits_noised_batch (x : sample) (sd : F) N :
  emits (is_draw sd (1%N :: shape x)) (noised_batch X [:: x] [:: sd] N).
Proof.
apply: emits_bind; last exact: emits_np_concatenate.
apply: emits_for_in => _ acc; apply: emits_bind; last by move=> ?; apply: emits_ret.
rewrite /draw_noise /=; apply: emits_bind; last exact: emits_np_concatenate.
apply: emits_bind; last first.
  by move=> y; apply: emits_bind => [|ys]; apply: emits_ret.
apply: emits_bind; last by move=> ?; apply: emits_ret.
by apply: emits_call; rewrite /= !eqxx.
Qed.

Lemma quiet_noised_batch (data : seq sample) stds N :
  quiet (noised_batch X data stds N).
Proof.
apply: emits_bind; last exact: emits_np_concatenate.
apply: emits_for_in => _ acc; apply: emits_bind; last by move=> ?; apply: emits_ret.
apply: emits_bind; last exact: emits_np_concatenate.
apply: emits_for_each => jd.
apply: emits_bind; last by move=> ?; apply: emits_ret.
exact: emits_call.
Qed.

Lemma quiet_gradients_of (dn : seq sample) labels N S i :
  quiet (gradients_of X dn labels N S i).
Proof.
move=> s; have [k _ [ev lab]] := gradients_of_trace X dn labels N S i s.
exists (predict_events (take k (chunk_calls dn labels N S))).
  by rewrite /predict_events all_map; elim: (take _ _).
move: ev lab; rewrite gradients_ofE /=.
by case: (predict_all X _ _) => [[r w] k'] /=; rewrite /issued /= drop_size_cat // => ->.
Qed.

Lemma quiet_prepare inputs labels na N rt ct :
  quiet (prepare X inputs labels na N rt ct).
Proof.
apply: emits_bind; first exact: emits_call.
case=> imgs data; apply: emits_bind.
  by case: ifP => _; [apply: emits_ret | apply: emits_raise].
move=> _; apply: emits_bind; first exact: emits_call.
move=> _; apply: emits_bind.
  case: labels => [ls|]; first exact: emits_ret.
  by apply: emits_bind => [|?]; [apply: emits_call | apply: emits_ret].
move=> ls; apply: emits_bind; first exact: quiet_reshape1.
move=> ls'; apply: emits_bind; first exact: emits_stds_of.
move=> stds; apply: emits_bind; first exact: quiet_noised_batch.
by move=> dn; apply: emits_ret.
Qed.

Lemma quiet_smooth_grad inputs labels na N S rt ct :
  quiet (smooth_grad X inputs labels na N S rt ct).
Proof.
apply: emits_bind; first exact: quiet_prepare.
case=> [[imgs ls] dn]; apply: emits_bind; first exact: quiet_gradients_of.
by move=> gi; apply: emits_ret.
Qed.

(** C5, as the code has it (batch-size enforcement).  When preprocessing
    yields two or more samples, interpret raises the AssertionError of
    its `assert len(data) == 1`; at that point only the preprocessing
    call has happened: the prediction function has been neither built nor
    called, no noise drawn, nothing shown or saved, no attribute set, and
    nothing is returned. *)
Theorem batch_size_assertion inputs labels na N S rt ct visual sp (s : state)
    imgs (data : seq sample) w :
  images_transform_pipeline X inputs rt ct (world s) = (Ok (imgs, data), w) ->
  (2 <= size data)%N ->
  interpret X inputs labels na N S rt ct visual sp s
  = (Raise (AssertionError "interpret each sample individually, it is optimized."),
     State w (rcons (trace s) (EvTransform inputs rt ct)) (self_labels s)).
Proof.
move=> pipe sz2.
rewrite /interpret /smooth_grad /prepare /bind /call pipe /=.
by case: (size data) sz2 => [|[|n]].
Qed.

(* Where a failing evaluation stopped: at the call that raised. *)
Lemma predict_all_raise (cs : seq (seq sample * option (seq label))) w e w' k :
  predict_all X cs w = (Raise e, w', k) ->
  exists j w0, [/\ k = j.+1, (j < size cs)%N
    & predict_fn X (nth ([::], None) cs j).1 (nth ([::], None) cs j).2 w0
      = (Raise e, w')].
Proof.
elim: cs w k => [|c cs IH] w k //=.
case E: (predict_fn X c.1 c.2 w) => [[gp|e0] w1] /=; last first.
  by case=> <- <- <-; exists 0%N, w.
case E': (predict_all X cs w1) => [[[gs|e1] w2] k'] //= [? ? ?]; subst.
by have [j [w0 [-> ltj H]]] := IH _ _ E'; exists j.+1, w0.
Qed.

Lemma smooth_grad_ok inputs labels na N S rt ct (s s2 : state) imgs ls avg i :
  smooth_grad X inputs labels na N S rt ct s = (Ok (imgs, ls, avg, i), s2) ->
  exists dn s1 gi,
    [/\ prepare X inputs labels na N rt ct s = (Ok (imgs, ls, dn), s1),
        gradients_of X dn ls N S (loop_var None N) s1 = (Ok gi, s2),
        avg = [:: np_mean0 gi.1] & i = gi.2].
Proof.
rewrite /smooth_grad /bind.
case: (prepare X _ _ _ _ _ _ s) => [[[[imgs' ls'] dn]|e] s1] //.
case E: (gradients_of X _ _ _ _ _ s1) => [[gi|e] s2'] //= [<- <- <- <- <-].
by exists dn, s1, gi.
Qed.

Lemma noised_batch_ok (data : seq sample) stds N (s s' : state) dn :
  noised_batch X data stds N s = (Ok dn, s') -> (0 < N)%N.
Proof. by case: N. Qed.

Lemma prepare_ok inputs labels na N rt ct (s s1 : state) imgs ls dn :
  prepare X inputs labels na N rt ct s = (Ok (imgs, ls, dn), s1) ->
  [/\ size ls = 1%N, (forall ls0, labels = Some ls0 -> ls0 = ls) & (0 < N)%N].
Proof.
rewrite /prepare; inv_bind; case=> [[imgs' data] [sa [_]]].
inv_bind; case=> [_ [sb [_]]]; inv_bind; case=> [_ [sc [_]]].
inv_bind; case=> [ls0 [sd [Els]]]; inv_bind; case=> [ls1 [se [Er]]].
inv_bind; case=> [stds [sf [_]]]; inv_bind; case=> [dn' [sg [/noised_batch_ok N0]]].
case=> _ eq_ls _ _; move: Er; rewrite /reshape1.
case: ifP => // /eqP sz1 [eq01 _]; split=> //; first by rewrite -eq_ls -eq01.
by move=> ls2 eq2; move: Els; rewrite eq2 => -[-> _]; rewrite eq01.
Qed.

(** C8, as the code has it (failure of the prediction function).  When
    the prediction function raises on some chunk, interpret ends with
    that very exception, unchanged; the chunk is called once and no chunk
    after it is called, nothing is shown or saved, the labels attribute
    is left as it was and nothing is returned. *)
Theorem prediction_failure_propagates inputs labels na N S rt ct visual sp
    (s s1 s2 : state) imgs ls dn e :
  prepare X inputs labels na N rt ct s = (Ok (imgs, ls, dn), s1) ->
  gradients_of X dn ls N S (loop_var None N) s1 = (Raise e, s2) ->
  let cs := chunk_calls dn ls N S in
  [/\ interpret X inputs labels na N S rt ct visual sp s = (Raise e, s2),
      exists j w, [/\ (j < size cs)%N,
        issued s1 s2 = predict_events (take j.+1 cs)
        & predict_fn X (nth ([::], None) cs j).1 (nth ([::], None) cs j).2 w
          = (Raise e, world s2)],
      ~~ has is_output (issued s s2)
    & self_labels s2 = self_labels s].
Proof.
move=> Ep Eg /=.
have Es : smooth_grad X inputs labels na N S rt ct s = (Raise e, s2).
  by rewrite /smooth_grad /bind Ep Eg.
have [out lab] := emits_issued s (quiet_smooth_grad inputs labels na N S rt ct).
split; first by rewrite /interpret (bind_raise _ Es).
- move: Eg; rewrite gradients_ofE /=.
  case E: (predict_all X _ _) => [[[gs|e'] w] k] //= [<- <-].
  have [j [w0 [-> ltj H]]] := predict_all_raise E.
  by exists j, w0; split=> //; apply: issued_cat.
- by move: out; rewrite Es /= all_predC.
- by move: lab; rewrite Es.
Qed.

(** C9 (the labels attribute).  Every interpret call that returns has
    stored the resolved label array, of exactly one entry, in the
    instance attribute labels of the state it leaves behind; it is the
    array the caller passed when one was passed, and the one the
    gradients were computed for. *)
Theorem labels_attribute_stored inputs labels na N S rt ct visual sp
    (s s' : state) avg :
  interpret X inputs labels na N S rt ct visual sp s = (Ok avg, s') ->
  exists l, [/\ self_labels s' = Some [:: l],
    forall ls, labels = Some ls -> ls = [:: l]
    & exists imgs dn s1,
        prepare X inputs labels na N rt ct s = (Ok (imgs, [:: l], dn), s1)].
Proof.
rewrite /interpret; inv_bind; case=> [[[[imgs ls] avg'] i] [s2 [Es]]].
inv_bind; case=> [_ [s3 [_]]]; rewrite /bind /= => -[_ <-] /=.
have [dn [s1 [gi [Ep _ _ _]]]] := smooth_grad_ok Es.
have [sz1 given _] := prepare_ok Ep.
case: ls sz1 given Ep {Es} => [|l [|l' ls]] // _ given Ep.
by exists l; split=> //; exists imgs, dn, s1.
Qed.

Lemma loop_varS i n : loop_var i n.+1 = Some n.
Proof. by rewrite /loop_var -addn1 iotaD map_cat last_cat /= add0n. Qed.

Lemma smooth_grad_i inputs labels na N S rt ct (s s2 : state) imgs ls avg i :
  smooth_grad X inputs labels na N S rt ct s = (Ok (imgs, ls, avg, i), s2) ->
  i = Some (leftover_index N S).
Proof.
move=> /smooth_grad_ok [dn [s1 [gi [/prepare_ok [_ _ N0] Eg _ ->]]]].
move: Eg; rewrite gradients_ofE /=.
case: (predict_all X _ _) => [[[gs|e] w] k] //= [<- _] /=.
rewrite /leftover_index; case: ifP => S1.
  by rewrite -[(S - 1)%N]prednK ?subn_gt0 // loop_varS subn1 subn2.
by rewrite -(prednK N0) loop_varS subn1.
Qed.

(* With one image and a leftover index past it, the visualisation stage
   stops at the image lookup. *)
Lemma visualize_out_of_range (imgs : seq image) (avg : seq sample) k visual
    (sp : option (seq string)) ls (s1 : state) :
  size imgs = 1%N -> (0 < k)%N -> visual || sp ->
  let run := (visualize X imgs avg (Some k) visual sp ;;;
              set_self_labels ls ;;; ret avg) s1 in
  [/\ ~~ is_ok run.1,
      trace run.2 = rcons (trace s1) (EvSavePath sp 1),
      self_labels run.2 = self_labels s1
    & is_ok (preprocess_save_path X sp 1 (world s1)).1 ->
      run.1 = Raise (IndexError "index out of range")].
Proof.
move=> sz1 k0 vs /=; rewrite /visualize.
have -> : ~~ sp && ~~ visual = false by rewrite -negb_or orbC vs.
rewrite /bind /call.
case: (preprocess_save_path X sp 1 (world s1)) => [[paths|e] w] //=.
by rewrite /getitem drop_oversize ?sz1.
Qed.

(** C10 (the leftover loop index).  When the averaged gradients have been
    computed, one image exists and showing or saving is requested, the
    image and the save path are looked up at the value the loops left in
    i: split - 2 when split >= 2, n_samples - 1 otherwise.  For split > 2,
    and for split <= 1 with n_samples > 1, the call does not return: it
    stops before anything is shown or saved, with the labels attribute
    untouched, and with an IndexError once the save path is preprocessed.
    A call that returns had a leftover index of 0. *)
Theorem leftover_loop_index inputs labels na N S rt ct visual
    (sp : option (seq string)) (s s1 : state) imgs ls avg i :
  smooth_grad X inputs labels na N S rt ct s = (Ok (imgs, ls, avg, i), s1) ->
  size imgs = 1%N ->
  visual || sp ->
  let run := interpret X inputs labels na N S rt ct visual sp s in
  [/\ i = Some (leftover_index N S),
      run = (visualize X imgs avg (Some (leftover_index N S)) visual sp ;;;
             set_self_labels ls ;;; ret avg) s1,
      (2 < S)%N || (S <= 1)%N && (1 < N)%N ->
      [/\ ~~ is_ok run.1,
          ~~ has is_output (issued s run.2),
          self_labels run.2 = self_labels s
        & is_ok (preprocess_save_path X sp 1 (world s1)).1 ->
          run.1 = Raise (IndexError "index out of range")]
    & is_ok run.1 -> leftover_index N S = 0%N].
Proof.
move=> Es sz1 vs /=; have Ei := smooth_grad_i Es; subst i.
have -> : interpret X inputs labels na N S rt ct visual sp s
        = (visualize X imgs avg (Some (leftover_index N S)) visual sp ;;;
           set_self_labels ls ;;; ret avg) s1.
  by rewrite /interpret {1}/bind Es.
have [evs out E1] := quiet_smooth_grad inputs labels na N S rt ct s.
move: E1; rewrite Es /= => E1.
have tr1 : trace s1 = trace s ++ evs by rewrite E1.
have lab1 : self_labels s1 = self_labels s by rewrite E1.
split=> //.
- move=> bad; have k0 : (0 < leftover_index N S)%N.
    rewrite /leftover_index; case/orP: bad => [S2|/andP [S1 N1]].
      by rewrite (ltn_trans _ S2) // subn_gt0.
    by rewrite [(1 < S)%N]ltnNge S1 /= subn_gt0.
  have [nok tr lab idx] := visualize_out_of_range avg ls s1 sz1 k0 vs.
  split=> //; last by rewrite lab.
  have -> : issued s ((visualize X imgs avg (Some (leftover_index N S)) visual sp ;;;
                       set_self_labels ls ;;; ret avg) s1).2
            = rcons evs (EvSavePath sp 1).
    by apply: issued_cat; rewrite tr tr1 rcons_cat.
  by rewrite has_rcons /= -all_predC.
- case: (leftover_index N S) => // k.
  by have [/negbTE -> _ _ _] := visualize_out_of_range avg ls s1 sz1 (ltn0Sn k) vs.
Qed.

Lemma stds_of1 na (x : sample) sd (s : state) :
  std_of na x = Ok sd -> stds_of na [:: x] s = (Ok [:: sd], s).
Proof. by move=> /= ->. Qed.

(** C2, as the code has it (noise calibration).  For a non-empty input
    sample the one standard deviation computed for it is noise_amount
    times the spread between the largest and the smallest entry of the
    whole sample, all channels together; every draw of the noise loop is
    a single call for the whole sample, channels included, at that one
    standard deviation around 0. *)
Theorem noise_std_per_sample na (x : sample) N (s : state) :
  (0 < size (elems x))%N ->
  exists mx mn,
    [/\ mx \in elems x /\ (forall y, y \in elems x -> y <= mx),
        mn \in elems x /\ (forall y, y \in elems x -> mn <= y),
        stds_of na [:: x] s = (Ok [:: na * (mx - mn)], s)
      & all (is_draw (na * (mx - mn)) (1%N :: shape x))
            (issued s (noised_batch X [:: x] [:: na * (mx - mn)] N s).2)].
Proof.
move=> /(std_ofP na) [mx [mn [Hmx Hmn Hstd]]]; exists mx, mn; split=> //.
  exact: stds_of1.
by case: (emits_issued s (emits_noised_batch x (na * (mx - mn)) N)).
Qed.







End Method.

(* --------------------------------------------------------------------- *)
(* The theorems at work on the concrete world                             *)
(* --------------------------------------------------------------------- *)

Lemma demo_sample_wise : sample_wise demo demo_grad.
Proof. by move=> xs ls w _; exists (nseq (size xs) (7 : int)), w.+1. Defined.


Lemma chunk_invariance_witness :
  [/\ sample_wise demo demo_grad, size demo_batch = 5%N & (1 <= 2 <= 5)%N]
  /\ gradient_batch (gradients_of demo demo_batch [:: 3%:Z] 5 2 None demo_state)
     = gradient_batch (gradients_of demo demo_batch [:: 3%:Z] 5 1 None demo_state).
Proof.
split; first by split=> //; exact: demo_sample_wise.
case: (@chunk_invariance _ _ _ _ _ demo demo_grad demo_batch 3%:Z 5 2 None
         demo_state demo_sample_wise erefl isT) => same _ _ _ _; exact: same.
Defined.

Lemma chunking_policy_witness :
  let run := gradients_of demo demo_batch [:: 3%:Z] 5 2 None demo_state in
  [/\ size demo_batch = 5%N, is_ok run.1 & size (issued demo_state run.2) = 2%N].
Proof.
have ok : is_ok (gradients_of demo demo_batch [:: 3%:Z] 5 2 None demo_state).1.
  by vm_compute.
move=> run; rewrite /run; split; [by [] | exact: ok | move: ok].
case E: (gradients_of _ _ _ _ _ _ _) => [[r|e] s'] // _.
case: (chunking_policy (erefl : size demo_batch = 5%N) E) => /(_ isT isT).
by case=> _ sz _ _ _ _; exact: sz.
Defined.

Lemma label_broadcast_witness :
  size demo_batch = 5%N
  /\ all (well_paired 3%:Z)
         (issued demo_state
            (gradients_of demo demo_batch [:: 3%:Z] 5 2 None demo_state).2).
Proof.
split; first by [].
case: (label_broadcast demo 3%:Z 2 None demo_state
         (erefl : size demo_batch = 5%N)) => paired _; exact: paired.
Defined.

(* C2 as stated fails: at noise amount 1 the sample whose channel 0 holds
   0 and 1 and whose channel 1 holds 5 and 5 gets the single standard
   deviation 5, where the per-channel formula gives 1 for channel 0. *)
Lemma std_not_per_channel :
  ~ (forall c, (c < 2)%N -> std_of 1 demo_sample = channel_std 1 demo_sample c).
Proof. by move/(_ 0%N isT); vm_compute. Qed.

Lemma noise_std_per_sample_witness :
  (0 < size (elems demo_sample))%N
  /\ exists mx mn,
       stds_of 1 [:: demo_sample] demo_state = (Ok [:: 1 * (mx - mn)], demo_state).
Proof.
split; first by [].
case: (noise_std_per_sample demo 1 4 demo_state
         (isT : (0 < size (elems demo_sample))%N)) => mx [mn [_ _ E _]].
by exists mx, mn.
Defined.

(* C5 as stated fails: two samples make interpret raise an AssertionError,
   not an UnsupportedBatchSizeError. *)
Lemma batch_error_is_not_unsupported_batch_size :
  raised (interpret demo [:: demo_sample; demo_sample] None 1 4 2 224 None
            true None demo_state).1
  <> Some "UnsupportedBatchSizeError"%string.
Proof. by vm_compute. Qed.

Lemma batch_size_assertion_witness :
  (2 <= size [:: demo_sample; demo_sample])%N
  /\ raised (interpret demo [:: demo_sample; demo_sample] None 1 4 2 224 None
               true None demo_state).1
     = Some "AssertionError"%string.
Proof.
split; first by [].
by rewrite (@batch_size_assertion _ _ _ _ _ demo [:: demo_sample; demo_sample]
              None 1 4 2 224 None true None demo_state
              [:: 0%N; 1%N] [:: demo_sample; demo_sample] 0%N erefl isT).
Defined.



(* C7 as stated fails: with 1 sample and split 3 the prediction function
   is called on empty slices. *)
Lemma empty_chunks_not_skipped :
  has zero_sized
    (issued demo_state
       (gradients_of demo (take 1 demo_batch) [:: 3%:Z] 1 3 None demo_state).2).
Proof. by vm_compute. Qed.

Lemma empty_chunks_witness :
  [/\ size (take 1 demo_batch) = 1%N, (1 < 3)%N
    & exists k, (0 < k)%N
        /\ issued demo_state
             (gradients_of demo (take 1 demo_batch) [:: 3%:Z] 1 3 None
                           demo_state).2
           = take k (rcons (nseq (3 - 1) (EvPredict [::] (Some [::])))
                           (EvPredict (take 1 demo_batch) (Some (nseq 1 3%:Z))))].
Proof.
split; [by [] | by [] |].
case: (@empty_chunks_are_evaluated _ _ _ _ _ demo (take 1 demo_batch) 3%:Z
         1 3 None demo_state erefl isT isT) => _ [k [k0 _ ev]] _ _.
by exists k.
Defined.

(* C8 as stated fails: when the model runs out of memory on the batch, the
   caller receives that RuntimeError, not a GradientComputationError. *)
Lemma failure_is_not_wrapped :
  let run := interpret demo_oom [:: demo_sample] None 1 6 2 224 None
               false None demo_state in
  raised run.1 = Some "RuntimeError"%string
  /\ raised run.1 <> Some "GradientComputationError"%string.
Proof. by split; vm_compute. Qed.

Lemma prediction_failure_witness :
  let run := interpret demo_oom [:: demo_sample] None 1 6 2 224 None
               false None demo_state in
  ~~ is_ok run.1 /\ ~~ has is_output (issued demo_state run.2).
Proof.
have [imgs [ls [dn [s1 [e [s2 [Ep Eg]]]]]]] : exists imgs ls dn s1 e s2,
    prepare demo_oom [:: demo_sample] None 1 6 224 None demo_state
    = (Ok (imgs, ls, dn), s1)
    /\ gradients_of demo_oom dn ls 6 2 (loop_var None 6) s1 = (Raise e, s2).
  pose P := prepare demo_oom [:: demo_sample] None 1 6 224 None demo_state.
  pose dn := if P.1 is Ok p then p.2 else [::].
  pose ls := if P.1 is Ok p then p.1.2 else [::].
  have okP : is_ok P.1 by vm_compute.
  have badG : ~~ is_ok (gradients_of demo_oom dn ls 6 2 (loop_var None 6) P.2).1.
    by vm_compute.
  move: okP badG; rewrite /dn /ls /P.
  case Ep: (prepare _ _ _ _ _ _ _ _) => [[[[imgs ls'] dn']|e] s1] //= _.
  case Eg: (gradients_of _ _ _ _ _ _ _) => [[gi|e] s2] //= _.
  by exists imgs, ls', dn', s1, e, s2.
move=> run; rewrite /run.
case: (prediction_failure_propagates false None Ep Eg) => -> _ out _.
by split.
Defined.

Lemma labels_attribute_witness :
  let run := interpret demo [:: demo_sample] None 1 4 2 224 None
               true None demo_state in
  is_ok run.1 /\ exists l, self_labels run.2 = Some [:: l].
Proof.
have ok : is_ok (interpret demo [:: demo_sample] None 1 4 2 224 None
                   true None demo_state).1.
  by vm_compute.
move=> run; rewrite /run; split; first exact: ok.
move: ok; case E: (interpret _ _ _ _ _ _ _ _ _ _ _) => [[avg|e] s'] // _.
by case: (labels_attribute_stored E) => l [lab _ _]; exists l.
Defined.

Lemma leftover_index_witness :
  ~~ is_ok (interpret demo [:: demo_sample] None 1 4 3 224 None
              true None demo_state).1.
Proof.
have [imgs [ls [avg [i [s1 [Eg sz]]]]]] : exists imgs ls avg i s1,
    smooth_grad demo [:: demo_sample] None 1 4 3 224 None demo_state
    = (Ok (imgs, ls, avg, i), s1) /\ size imgs = 1%N.
  pose G := smooth_grad demo [:: demo_sample] None 1 4 3 224 None demo_state.
  pose imgs := if G.1 is Ok p then p.1.1.1 else [::].
  have okG : is_ok G.1 by vm_compute.
  have sz : size imgs == 1%N by vm_compute.
  move: okG sz; rewrite /imgs /G.
  case Eg: (smooth_grad _ _ _ _ _ _ _ _ _) => [[[[[imgs' ls] avg] i]|e] s1] //= _ /eqP sz.
  by exists imgs', ls, avg, i, s1.
case: (@leftover_loop_index _ _ _ _ _ demo [:: demo_sample] None 1 4 3 224 None
         true None demo_state s1 imgs ls avg i Eg sz isT) => _ _ /(_ isT) [nok _ _ _] _.
exact: nok.
Defined.

(* --------------------------------------------------------------------- *)
(* More on what the stages add to the trace                               *)
(* --------------------------------------------------------------------- *)

Section Logs.

Variable F : realFieldType.
Variables env input image vis : Type.
Variable X : externals F env input image vis.

Notation sample := (ndarray F).
Notation state := (state F env input image vis).
Notation M := (M F env input image vis).
Notation event := (event F input image vis).

Variable p : pred event.

(* As emits_bind, with the continuation only run on what m returned. *)
Lemma emits_bind_ok A B (m : M A) (k : A -> M B) :
  emits p m ->
  (forall a s s1, m s = (Ok a, s1) -> emits p (k a)) ->
  emits p (x <- m ;; k x).
Proof.
move=> em ek s; have [evs1 p1] := em s.
rewrite /bind; case E: (m s) => [[a|e] s1] /= E1; last by exists evs1.
have [evs2 p2 E2] := ek a s s1 E s1; exists (evs1 ++ evs2); first by rewrite all_cat p1.
by rewrite E2 E1 /= catA.
Qed.

Lemma emits_sub (q : pred event) A (m : M A) :
  (forall e, q e -> p e) -> emits q m -> emits p m.
Proof.
move=> qp em s; have [evs qe E] := em s; exists evs => //.
exact: sub_all qe.
Qed.

Lemma emits_logs A (m : M A) : emits p m -> logs p m.
Proof. by move=> em s; have [evs pe ->] := em s; exists evs. Qed.

Lemma logs_bind A B (m : M A) (k : A -> M B) :
  logs p m -> (forall a, logs p (k a)) -> logs p (x <- m ;; k x).
Proof.
move=> lm lk s; have [evs1 p1] := lm s.
rewrite /bind; case: (m s) => [[a|e] s1] /= E1; last by exists evs1.
have [evs2 p2 E2] := lk a s1; exists (evs1 ++ evs2); first by rewrite all_cat p1.
by rewrite E2 E1 catA.
Qed.

Lemma logs_issued A (m : M A) (s : state) :
  logs p m -> all p (issued s (m s).2).
Proof.
by move=> lm; have [evs pe E] := lm s; rewrite (@issued_cat _ _ _ _ _ s _ evs).
Qed.

Lemma emits_gradients_of (dn : seq sample) labels N S i :
  (forall d ls, p (EvPredict d (Some ls))) ->
  emits p (gradients_of X dn labels N S i).
Proof.
move=> pp; rewrite /gradients_of; case: ifP => _.
  apply: emits_bind.
    apply: emits_for_in => j acc; apply: emits_bind; first exact: emits_call.
    by move=> gp; apply: emits_ret.
  move=> chunks; apply: emits_bind; first exact: emits_call.
  move=> gp; apply: emits_bind; first exact: emits_np_concatenate.
  by move=> g; apply: emits_ret.
apply: emits_bind; first exact: emits_call.
by move=> gp; apply: emits_ret.
Qed.

Lemma emits_visualize (imgs : seq image) (avg : seq sample) i (visual : bool)
    (sp : option (seq string)) :
  p (EvSavePath sp 1) -> (forall img e st, p (EvToVis img e st)) ->
  (visual -> forall v, p (EvShow v)) -> (forall path v, p (EvSave path v)) ->
  emits p (visualize X imgs avg i visual sp).
Proof.
move=> psp pvis pshow psave; rewrite /visualize; case: ifP => _.
  exact: emits_ret.
apply: emits_bind; first exact: emits_call.
move=> paths; apply: emits_bind.
  by rewrite /getitem; case: i => [k|]; [case: (drop k imgs) => [|? ?];
     [apply: emits_raise | apply: emits_ret] | apply: emits_raise].
move=> img; apply: emits_bind.
  by rewrite /getitem; case: (drop 0 avg) => [|? ?];
     [apply: emits_raise | apply: emits_ret].
move=> g0; apply: emits_bind; first exact: emits_call.
move=> v; apply: emits_bind.
  case: visual pshow => pshow; last exact: emits_ret.
  by apply: emits_call; apply: pshow.
move=> _; apply: emits_bind.
  by rewrite /getitem; case: i => [k|]; [case: (drop k paths) => [|? ?];
     [apply: emits_raise | apply: emits_ret] | apply: emits_raise].
by case=> [path|]; [apply: emits_call | apply: emits_ret].
Qed.

Lemma emits_noised_batch_draws (data : seq sample) stds N :
  (forall sd, sd \in stds -> forall sz, p (EvNormal 0 sd sz)) ->
  emits p (noised_batch X data stds N).
Proof.
move=> pd; apply: emits_bind; last exact: emits_np_concatenate.
apply: emits_for_in => _ acc; apply: emits_bind; last by move=> ?; apply: emits_ret.
apply: emits_bind; last exact: emits_np_concatenate.
elim: stds data pd => [|sd stds IH] [|d data] pd /=; try exact: emits_ret.
apply: emits_bind.
  apply: emits_bind; last by move=> ?; apply: emits_ret.
  by apply: emits_call; apply: pd; rewrite mem_head.
move=> y; apply: emits_bind; last by move=> ?; apply: emits_ret.
by apply: IH => sd' in_l; apply: pd; rewrite in_cons in_l orbT.
Qed.

Lemma emits_noised_batch0 (data : seq sample) stds :
  emits p (noised_batch X data stds 0).
Proof.
by apply: emits_bind; [apply: emits_ret | apply: emits_np_concatenate].
Qed.

Lemma emits_prepare inputs labels na N rt ct :
  p (EvTransform inputs rt ct) -> p (EvBuildPredictFn "probability") ->
  (labels = None -> forall d, p (EvPredict d None)) ->
  (forall data stds (s s' : state), stds_of na data s = (Ok stds, s') ->
     emits p (noised_batch X data stds N)) ->
  emits p (prepare X inputs labels na N rt ct).
Proof.
move=> pt pb pr pn; apply: emits_bind; first exact: emits_call.
case=> imgs data; apply: emits_bind.
  by case: ifP => _; [apply: emits_ret | apply: emits_raise].
move=> _; apply: emits_bind; first exact: emits_call.
move=> _; apply: emits_bind.
  case: labels pr => [ls|] pr; first exact: emits_ret.
  by apply: emits_bind => [|?]; [apply: emits_call; apply: pr | apply: emits_ret].
move=> ls; apply: emits_bind.
  by rewrite /reshape1; case: ifP => _; [apply: emits_ret | apply: emits_raise].
move=> ls'; apply: emits_bind_ok; first exact: emits_stds_of.
move=> stds s s' /pn en; apply: emits_bind => // dn; exact: emits_ret.
Qed.

Lemma emits_smooth_grad inputs labels na N S rt ct :
  emits p (prepare X inputs labels na N rt ct) ->
  (forall d ls, p (EvPredict d (Some ls))) ->
  emits p (smooth_grad X inputs labels na N S rt ct).
Proof.
move=> ep pg; apply: emits_bind => //.
case=> [[imgs ls] dn]; apply: emits_bind; first exact: emits_gradients_of.
by move=> gi; apply: emits_ret.
Qed.

Lemma logs_interpret inputs labels na N S rt ct (visual : bool)
    (sp : option (seq string)) :
  emits p (smooth_grad X inputs labels na N S rt ct) ->
  (forall imgs avg i, emits p (visualize X imgs avg i visual sp)) ->
  logs p (interpret X inputs labels na N S rt ct visual sp).
Proof.
move=> es ev; apply: logs_bind; first exact: emits_logs.
case=> [[[imgs ls] avg] i]; apply: logs_bind; first exact: emits_logs.
move=> _; apply: logs_bind; first by move=> s; exists [::]; rewrite //= cats0.
by move=> _; apply: emits_logs; apply: emits_ret.
Qed.

End Logs.

(* --------------------------------------------------------------------- *)
(* The noise loop and the prepared batch                                  *)
(* --------------------------------------------------------------------- *)

Section Noise.

Variable F : realFieldType.
Variables env input image vis : Type.
Variable X : externals F env input image vis.

Notation sample := (ndarray F).
Notation state := (state F env input image vis).
Notation M := (M F env input image vis).
Notation event := (event F input image vis).

(* One replica of a single sample: one draw, one array of its shape. *)
Lemma draw_noise_single (x : sample) sd (s s1 : state) noise :
  draw_noise X [:: x] [:: sd] s = (Ok noise, s1) ->
  (exists buf, noise = [:: NdArray (shape x) buf])
  /\ trace s1 = rcons (trace s) (EvNormal 0 sd (1%N :: shape x)).
Proof.
rewrite /draw_noise /= /bind /call.
case: (random_normal X 0 sd _ (world s)) => [[buf|e] w] //= [<- <-].
by split=> //; exists buf.
Qed.

Lemma noise_loop_single (x : sample) sd ks acc (s s' : state) r :
  for_in ks (fun _ data_noised =>
               noise <- draw_noise X [:: x] [:: sd] ;;
               ret (rcons data_noised (batch_add [:: x] noise))) acc s
  = (Ok r, s') ->
  exists ds, [/\ r = acc ++ [seq [:: d] | d <- ds], size ds = size ks,
                 all (fun d => shape d == shape x) ds
               & trace s' = trace s ++ nseq (size ks) (EvNormal 0 sd (1%N :: shape x))].
Proof.
elim: ks acc s => [|j ks IH] acc s /=.
  by case=> <- <-; exists [::]; rewrite !cats0.
inv_bind; case=> [a [s1 []]]; inv_bind; case=> [noise [s0 [Ed]]].
have [[buf ->] tr0] := draw_noise_single Ed.
rewrite /batch_add /= => -[<- <-] /IH [ds [-> sz sh tr]].
exists (nd_add x (NdArray (shape x) buf) :: ds); split=> //=.
- by rewrite cat_rcons.
- by rewrite sz.
- by rewrite eqxx.
- by rewrite tr tr0 cat_rcons.
Qed.

(* A returning noise loop on a single sample: its replicas and draws. *)
Lemma noised_batch_single (x : sample) sd N (s s' : state) dn :
  noised_batch X [:: x] [:: sd] N s = (Ok dn, s') ->
  [/\ size dn = N, all (fun d => shape d == shape x) dn
    & trace s' = trace s ++ nseq N (EvNormal 0 sd (1%N :: shape x))].
Proof.
rewrite /noised_batch; inv_bind; case=> [r [s1 [/noise_loop_single]]].
case=> ds [-> sz sh tr]; rewrite size_iota in sz tr.
case: ds sz sh tr => [|d ds] sz sh tr //= [<- <-].
by rewrite -/(flatten [seq [:: d0] | d0 <- ds]) flatten_seq1.
Qed.

(** X1 (the noise loop).  On a single input sample, a noise loop that
    returns has drawn from the generator exactly n_samples times, each
    time around 0 at the one standard deviation and for the shape
    (1,) + shape of the sample, and has produced exactly n_samples
    replicas, each of the shape of the sample. *)
Theorem noised_batch_replicas (x : sample) sd N (s s' : state) dn :
  noised_batch X [:: x] [:: sd] N s = (Ok dn, s') ->
  [/\ size dn = N, all (fun d => shape d == shape x) dn
    & issued s s' = nseq N (EvNormal 0 sd (1%N :: shape x))].
Proof.
by move=> /noised_batch_single [sz sh tr]; split=> //; apply: issued_cat.
Qed.

Lemma stds_of_ok na (data : seq sample) stds (s s' : state) :
  stds_of na data s = (Ok stds, s') ->
  s' = s /\ size stds = size data
  /\ forall j, (j < size data)%N ->
       std_of na (nth (NdArray [::] [::]) data j) = Ok (nth 0 stds j).
Proof.
elim: data stds s' => [|d data IH] stds s' /=; first by case=> <- <-.
case E: (std_of na d) => [sd|e] //; inv_bind; case=> [ss [s1 [/IH [-> [sz H]]]]].
by case=> <- <-; split=> //; split; rewrite /= ?sz // => -[|j] //= /H.
Qed.

(* What a returning prepare went through. *)
Lemma prepare_inv inputs labels na N rt ct (s s1 : state) imgs ls dn :
  prepare X inputs labels na N rt ct s = (Ok (imgs, ls, dn), s1) ->
  exists x w sd sa,
    [/\ images_transform_pipeline X inputs rt ct (world s) = (Ok (imgs, [:: x]), w),
        std_of na x = Ok sd
      & noised_batch X [:: x] [:: sd] N sa = (Ok dn, s1)].
Proof.
rewrite /prepare; inv_bind; case=> [[imgs' data] [sa [Ea]]].
inv_bind; case=> [u [sb [Eb]]]; inv_bind; case=> [_ [sc [_]]].
inv_bind; case=> [ls0 [sd [_]]]; inv_bind; case=> [ls1 [se [_]]].
inv_bind; case=> [stds [sf [/stds_of_ok [-> [sz Hstd]]]]].
inv_bind; case=> [dn' [sg [En]]] [eqi _ eqd eqs].
move: Ea Eb; rewrite /call.
case Ep: (images_transform_pipeline X _ _ _ _) => [[[i0 d0]|e] w] //= [ei ed _].
case: ifP => // /eqP sz1 _; move: sz1 sz Hstd En; rewrite -{}ed.
case: d0 Ep => [|x [|? ?]] // Ep _; case: stds => [|sd0 [|? ?]] // _ /(_ 0%N isT) /= Hsd En.
by exists x, w, sd0, se; split; rewrite -?eqi -?ei // -eqd -eqs.
Qed.

(** X2 (the prepared batch).  Whenever preprocessing, label resolution
    and noise generation return, the noised batch handed to the gradient
    evaluation has exactly n_samples entries, n_samples is at least 1,
    and every entry has the shape of the one preprocessed input sample. *)
Theorem prepared_batch_size inputs labels na N rt ct (s s1 : state) imgs ls dn :
  prepare X inputs labels na N rt ct s = (Ok (imgs, ls, dn), s1) ->
  exists x w,
    [/\ images_transform_pipeline X inputs rt ct (world s) = (Ok (imgs, [:: x]), w),
        size dn = N, (0 < N)%N & all (fun d => shape d == shape x) dn].
Proof.
move=> Ep; have [x [w [sd [sa [pipe _ En]]]]] := prepare_inv Ep.
have [sz sh _] := noised_batch_single En.
by exists x, w; split=> //; apply: noised_batch_ok En.
Qed.

End Noise.

(* --------------------------------------------------------------------- *)
(* What a call never asks of the outside                                  *)
(* --------------------------------------------------------------------- *)

Section Never.

Variable F : realFieldType.
Variables env input image vis : Type.
Variable X : externals F env input image vis.

Notation sample := (ndarray F).
Notation state := (state F env input image vis).
Notation M := (M F env input image vis).
Notation event := (event F input image vis).

(** X3 (no samples).  With n_samples = 0 interpret never returns a
    result, whatever the collaborators do: it stops before any noise is
    drawn and before any gradient is asked of the prediction function,
    and nothing is shown or saved. *)
Theorem no_samples_no_result inputs labels na S rt ct visual sp (s : state) :
  let run := interpret X inputs labels na 0 S rt ct visual sp s in
  ~~ is_ok run.1
  /\ all (fun e => [&& is_compute e, ~~ is_gradient_call e & ~~ is_normal e])
         (issued s run.2).
Proof.
move=> /=.
have ep : emits (fun e : event =>
                   [&& is_compute e, ~~ is_gradient_call e & ~~ is_normal e])
                (prepare X inputs labels na 0 rt ct).
  by apply: emits_prepare => // *; apply: emits_noised_batch0.
case Ep: (prepare X inputs labels na 0 rt ct s) => [[[[imgs ls] dn]|e] s1].
  by have [] := prepare_ok Ep.
have -> : interpret X inputs labels na 0 S rt ct visual sp s = (Raise e, s1).
  by rewrite /interpret /smooth_grad; do 2!apply: bind_raise.
by split=> //; have [] := emits_issued s ep; rewrite Ep.
Qed.

(** X4 (labels given).  When the caller passes labels, the prediction
    function is never called without labels: no call is spent on
    predicting the label, in any run. *)
Theorem given_labels_no_resolution_call inputs ls na N S rt ct visual sp
    (s : state) :
  all (predC is_resolution_call)
      (issued s (interpret X inputs (Some ls) na N S rt ct visual sp s).2).
Proof.
apply: logs_issued; apply: logs_interpret; last first.
  by move=> imgs avg i; apply: emits_visualize.
apply: emits_smooth_grad => //; apply: emits_prepare => // data stds _ _ _.
exact: emits_noised_batch_draws.
Qed.

Lemma std_of_ge0 (na : F) (x : sample) sd :
  0 <= na -> std_of na x = Ok sd -> 0 <= sd.
Proof.
rewrite /std_of; case: (elems x) => [|y ys] //= na0 [<-].
apply: mulr_ge0 => //; rewrite subr_ge0.
have [_ ub] := foldl_maxP y ys; have [_ lb] := foldl_minP y ys.
exact: le_trans (lb _ (mem_head _ _)) (ub _ (mem_head _ _)).
Qed.

(** X7 (the scale of the draws).  With noise_amount >= 0 the random
    generator is never asked for a negative standard deviation: every
    draw of a call is around 0 with a scale >= 0. *)
Theorem draws_have_valid_scale inputs labels na N S rt ct visual sp (s : state) :
  0 <= na ->
  all draw_scale_ok
      (issued s (interpret X inputs labels na N S rt ct visual sp s).2).
Proof.
move=> na0; apply: logs_issued; apply: logs_interpret; last first.
  by move=> imgs avg i; apply: emits_visualize.
apply: emits_smooth_grad => //; apply: emits_prepare => // data stds s0 s1.
move=> /stds_of_ok [_ [sz Hstd]]; apply: emits_noised_batch_draws => sd.
move=> /(nthP 0) [j ltj <-] _ /=; rewrite eqxx /=.
by apply: std_of_ge0 na0 (Hstd j _); rewrite -sz.
Qed.

(** X10 (a failed call).  A call of interpret that ends with an
    exception leaves the labels attribute of the instance as it was. *)
Theorem failed_call_keeps_labels inputs labels na N S rt ct visual sp
    (s s' : state) e :
  interpret X inputs labels na N S rt ct visual sp s = (Raise e, s') ->
  self_labels s' = self_labels s.
Proof.
have [_] := emits_issued s (quiet_smooth_grad X inputs labels na N S rt ct).
rewrite /interpret {1}/bind.
case: (smooth_grad X _ _ _ _ _ _ _ s) => [[[[[imgs ls] avg] i]|e0] s1] /= lab1.
  have ev : emits predT (visualize X imgs avg i visual sp).
    exact: emits_visualize.
  have [_] := emits_issued s1 ev; rewrite /bind.
  by case: (visualize X _ _ _ _ _ s1) => [[u|e1] s2] //= lab2 [_ <-]; rewrite lab2.
by case=> _ <-.
Qed.

(** X11 (no visualisation).  Asked neither to show nor to save, interpret
    only preprocesses, builds and calls the prediction function and draws
    noise, and it returns exactly when the averaged gradients could be
    computed. *)
Theorem no_visualisation_only_computes inputs labels na N S rt ct (s : state) :
  let run := interpret X inputs labels na N S rt ct false None s in
  all is_compute (issued s run.2)
  /\ is_ok run.1 = is_ok (smooth_grad X inputs labels na N S rt ct s).1.
Proof.
move=> /=; split.
  apply: logs_issued; apply: logs_interpret; last first.
    by move=> imgs avg i; rewrite /visualize /=; apply: emits_ret.
  apply: emits_smooth_grad => //; apply: emits_prepare => // data stds _ _ _.
  exact: emits_noised_batch_draws.
rewrite /interpret {1}/bind.
by case: (smooth_grad X _ _ _ _ _ _ _ s) => [[[[[imgs ls] avg] i]|e0] s1].
Qed.

(** X12 (visual off).  With visual = False nothing is ever shown, also
    when a save path is given. *)
Theorem visual_off_never_shows inputs labels na N S rt ct sp (s : state) :
  all (predC is_show)
      (issued s (interpret X inputs labels na N S rt ct false sp s).2).
Proof.
apply: logs_issued; apply: logs_interpret; last first.
  by move=> imgs avg i; apply: emits_visualize.
apply: emits_smooth_grad => //; apply: emits_prepare => // data stds _ _ _.
exact: emits_noised_batch_draws.
Qed.

End Never.

(* --------------------------------------------------------------------- *)
(* Errors, bounds and the visualisation stage                             *)
(* --------------------------------------------------------------------- *)

Section Edges.

Variable F : realFieldType.
Variables env input image vis : Type.
Variable X : externals F env input image vis.

Notation sample := (ndarray F).
Notation state := (state F env input image vis).
Notation M := (M F env input image vis).
Notation event := (event F input image vis).

(** X5 (wrong number of labels).  When the caller passes a label array
    that does not hold exactly one label, interpret raises the ValueError
    of reshape((1, )) right after preprocessing and building the
    prediction function: the prediction function is not called, no noise
    is drawn and nothing is returned. *)
Theorem wrong_label_count inputs ls na N S rt ct visual sp (s : state)
    imgs (data : seq sample) w w1 :
  images_transform_pipeline X inputs rt ct (world s) = (Ok (imgs, data), w) ->
  size data = 1%N ->
  _build_predict_fn X "probability" w = (Ok tt, w1) ->
  size ls != 1%N ->
  interpret X inputs (Some ls) na N S rt ct visual sp s
  = (Raise (ValueError "cannot reshape array into shape (1,)"),
     State w1 (trace s ++ [:: EvTransform inputs rt ct;
                              EvBuildPredictFn "probability"])
           (self_labels s)).
Proof.
move=> pipe sz build /negbTE bad.
rewrite /interpret /smooth_grad /prepare /bind /call pipe /= sz eqxx /= build /=.
by rewrite /reshape1 bad /= -!cats1 -catA.
Qed.

(** X6 (empty sample).  When the preprocessed sample has no entry,
    interpret raises the ValueError of np.max on a zero-size array once
    the label is resolved; up to then it has only preprocessed, built the
    prediction function and, when no label was passed, asked it for the
    label: no noise is drawn. *)
Theorem empty_sample_is_rejected inputs labels l na N S rt ct visual sp
    (s : state) imgs (x : sample) w :
  images_transform_pipeline X inputs rt ct (world s) = (Ok (imgs, [:: x]), w) ->
  (forall w', is_ok (_build_predict_fn X "probability" w').1) ->
  resolves_to X [:: x] labels l ->
  elems x = [::] ->
  exists s',
    interpret X inputs labels na N S rt ct visual sp s
    = (Raise (ValueError "zero-size array to reduction operation maximum which has no identity"), s')
    /\ issued s s' = [:: EvTransform inputs rt ct; EvBuildPredictFn "probability"]
                     ++ (if labels is None then [:: EvPredict [:: x] None] else [::]).
Proof.
move=> pipe build res empty.
pose sa : state := State w (rcons (trace s) (EvTransform inputs rt ct)) (self_labels s).
have Ea : call (EvTransform inputs rt ct)
               (images_transform_pipeline X inputs rt ct) s
          = (Ok (imgs, [:: x]), sa).
  by rewrite /call pipe.
have [sb [Eb trb]] : exists sb, call (EvBuildPredictFn "probability")
                               (_build_predict_fn X "probability") sa
                          = (Ok tt, sb)
     /\ trace sb = trace s ++ [:: EvTransform inputs rt ct; EvBuildPredictFn "probability"].
  rewrite /call /=.
  case: (_build_predict_fn X _ w) (build w) => [[[]|e] w1] //= _; eexists; split=> //=.
  by rewrite -!cats1 -catA.
have [sc [Ec trc]] : exists sc, (if labels is Some ls then ret ls
                  else gp <- call_predict_fn X [:: x] None ;; ret gp.2) sb
                 = (Ok [:: l], sc)
     /\ trace sc = trace sb ++ (if labels is None then [:: EvPredict [:: x] None] else [::]).
  case: labels res => [ls|] /= res.
    by exists sb; rewrite res cats0.
  rewrite /bind /call_predict_fn /call.
  by have [gs [w2 ->]] := res (world sb); eexists; split=> //=; rewrite cats1.
have Er : reshape1 [:: l] sc = (Ok [:: l], sc) by [].
exists sc; split; last by apply: issued_cat; rewrite trc trb -catA.
rewrite /interpret /smooth_grad /prepare.
apply: bind_raise; apply: bind_raise; rewrite (bind_okE _ Ea) /=.
rewrite {1}/bind /= (bind_okE _ Eb) (bind_okE _ Ec) (bind_okE _ Er).
by apply: bind_raise; rewrite /= /std_of empty.
Qed.

(** X8 (constant sample).  A sample whose entries are all equal gets the
    standard deviation 0, whatever the noise amount: the value range the
    noise is scaled by is empty. *)
Theorem constant_sample_gets_no_noise (na : F) (x : sample) c :
  (0 < size (elems x))%N -> all (pred1 c) (elems x) ->
  std_of na x = Ok 0.
Proof.
move=> /(std_ofP na) [mx [mn [[inx _] [inn _] ->]]] /allP cst.
by rewrite (eqP (cst _ inx)) (eqP (cst _ inn)) subrr mulr0.
Qed.

Lemma chunk_tail_size N S : (0 < S)%N ->
  (N - N %/ S * (S - 1) = N %/ S + N %% S)%N.
Proof.
move=> S0; rewrite {1}(divn_eq N S).
have {2}-> : S = ((S - 1).+1)%N by rewrite subn1 prednK.
by rewrite mulnS [(N %/ S + _)%N]addnC -addnA addKn.
Qed.

Lemma chunk_calls_bound (dn : seq sample) labels N S :
  size dn = N -> (1 < S)%N ->
  all (fun c => size c.1 <= N %/ S + N %% S)%N (chunk_calls dn labels N S).
Proof.
move=> szN S1; rewrite /chunk_calls S1 all_rcons /=.
rewrite size_drop szN chunk_tail_size ?leqnn ?(ltnW S1) //=.
rewrite all_map; apply/allP => j; rewrite mem_iota add0n => /andP [_ ltj] /=.
rewrite size_slice ?leq_addr // szN; apply: leq_trans (chunk_front_le N S).
by rewrite mulnC leq_mul2l addn1 ltj orbT.
Qed.

(** X9 (size of the calls).  With split > 1 no call of the chunked
    evaluation hands the prediction function more than
    n_samples // split + n_samples % split samples, and the final chunk
    has exactly that many. *)
Theorem chunk_memory_bound (dn : seq sample) labels N S i (s : state) :
  size dn = N -> (1 < S)%N ->
  all (fun e => size (event_data e) <= N %/ S + N %% S)%N
      (issued s (gradients_of X dn labels N S i s).2)
  /\ size (drop (N %/ S * (S - 1)) dn) = (N %/ S + N %% S)%N.
Proof.
move=> szN S1; split; last by rewrite size_drop szN chunk_tail_size // ltnW.
have [k _ [-> _]] := gradients_of_trace X dn labels N S i s.
exact: all_predict_events (chunk_calls_bound labels szN S1).
Qed.

Lemma count_none (p : pred event) evs : all (predC p) evs -> count p evs = 0%N.
Proof. by rewrite all_predC has_count -leqNgt leqn0 => /eqP. Qed.

Lemma count_chunk_calls (dn : seq sample) labels N S :
  count is_gradient_call
        (predict_events (chunk_calls dn labels N S) : seq event)
  = if (1 < S)%N then S else 1%N.
Proof.
rewrite /chunk_calls /predict_events; case: ifP => S1 //=.
rewrite map_rcons -cats1 count_cat /= addn1 -map_comp count_map.
rewrite (@eq_count _ _ predT) // count_predT size_iota subn1 prednK //.
exact: ltnW.
Qed.

(** X14 (number of gradient evaluations).  A call of interpret that
    returns has asked the prediction function for gradients exactly
    split times when split > 1 and exactly once otherwise, whatever else
    it asked of the outside. *)
Theorem gradient_calls_count inputs labels na N S rt ct visual sp
    (s s' : state) avg :
  interpret X inputs labels na N S rt ct visual sp s = (Ok avg, s') ->
  count is_gradient_call (issued s s') = if (1 < S)%N then S else 1%N.
Proof.
rewrite /interpret; inv_bind; case=> [[[[imgs ls] avg'] i] [s2 [Es]]].
inv_bind; case=> [u [s3 [Ev]]]; rewrite /bind /= => -[_ <-].
have [dn [s1 [gi [Ep Eg _ _]]]] := smooth_grad_ok Es.
have [e1 p1] : exists2 e1, all (predC is_gradient_call) e1
                 & trace s1 = trace s ++ e1.
  have ep : emits (predC (@is_gradient_call F input image vis))
                  (prepare X inputs labels na N rt ct).
    apply: emits_prepare => // data stds _ _ _.
    exact: emits_noised_batch_draws.
  by have [e1 p1] := ep s; rewrite Ep /= => E1; exists e1 => //; rewrite E1.
have [e2 _] := quiet_gradients_of X dn ls N S (loop_var None N) s1.
rewrite Eg /= => E2; have tr2 : trace s2 = trace s1 ++ e2 by rewrite E2.
have e2E : e2 = predict_events (chunk_calls dn ls N S).
  by rewrite -(gradients_of_ok Eg); apply/esym/issued_cat.
have ev : emits (predC (@is_gradient_call F input image vis))
                (visualize X imgs avg' i visual sp).
  exact: emits_visualize.
have [e3 p3] := ev s2; rewrite Ev /= => E3 tr1.
have tr3 : trace s3 = trace s2 ++ e3 by rewrite E3.
rewrite /issued /= tr3 tr2 tr1 -!catA drop_size_cat //.
by rewrite !count_cat (count_none p1) (count_none p3) e2E count_chunk_calls addn0.
Qed.

(** X13 (visualisation at index 0).  When the averaged gradients are
    computed, one image exists, the leftover loop index is 0 (split = 2,
    or split <= 1 with n_samples = 1), the save paths come back non-empty
    and the rendering collaborators do not raise, a call asked to show or
    save returns the averaged gradients, stores the labels, shows exactly
    when visual is set and saves exactly when the first save path is not
    None. *)
Theorem visualisation_at_index0 inputs labels na N S rt ct (visual : bool)
    (sp : option (seq string)) (s s1 : state) imgs ls avg i p0 ps w1 :
  smooth_grad X inputs labels na N S rt ct s = (Ok (imgs, ls, avg, i), s1) ->
  size imgs = 1%N -> leftover_index N S = 0%N -> visual || sp ->
  preprocess_save_path X sp 1 (world s1) = (Ok (p0 :: ps), w1) ->
  (forall img e st w, is_ok (explanation_to_vis X img e st w).1) ->
  (forall v w, is_ok (show_vis_explanation X v w).1) ->
  (forall path v w, is_ok (save_image X path v w).1) ->
  exists s',
    [/\ interpret X inputs labels na N S rt ct visual sp s = (Ok avg, s'),
        self_labels s' = Some ls,
        count is_show (issued s1 s') = visual
      & count is_save (issued s1 s') = isSome p0].
Proof.
move=> Es sz1 i0 vs Epath tovis show save.
have Ei := smooth_grad_i Es; rewrite i0 in Ei; subst i.
have [dn [s0 [gi [_ _ Eavg _]]]] := smooth_grad_ok Es.
case: imgs sz1 Es => [|img [|? ?]] // _ Es.
rewrite /interpret (bind_okE _ Es) /visualize.
have -> : ~~ sp && ~~ visual = false by rewrite -negb_or orbC vs.
rewrite Eavg /bind /call Epath /=.
case: (explanation_to_vis X img _ _ w1) (tovis img (abs_sum0 (np_mean0 gi.1))
         "overlay_grayscale"%string w1) => [[v|e] w2] //= _.
case: visual {vs} => /=.
  case: (show_vis_explanation X v w2) (show v w2) => [[[]|e] w3] //= _.
  case: p0 {Epath} => [path|] /=.
    case: (save_image X path v w3) (save path v w3) => [[[]|e] w4] //= _.
    eexists; split=> //=.
      by rewrite /issued /= -!cats1 -!catA drop_size_cat.
    by rewrite /issued /= -!cats1 -!catA drop_size_cat.
  eexists; split=> //=.
    by rewrite /issued /= -!cats1 -!catA drop_size_cat.
  by rewrite /issued /= -!cats1 -!catA drop_size_cat.
case: p0 {Epath} => [path|] /=.
  case: (save_image X path v w2) (save path v w2) => [[[]|e] w4] //= _.
  eexists; split=> //=.
    by rewrite /issued /= -!cats1 -!catA drop_size_cat.
  by rewrite /issued /= -!cats1 -!catA drop_size_cat.
eexists; split=> //=.
  by rewrite /issued /= -!cats1 -!catA drop_size_cat.
by rewrite /issued /= -!cats1 -!catA drop_size_cat.
Qed.

End Edges.

(* --------------------------------------------------------------------- *)
(* These properties at work on the concrete world                         *)
(* --------------------------------------------------------------------- *)

Lemma noised_batch_replicas_witness :
  let run := noised_batch demo [:: demo_sample] [:: 5] 4 demo_state in
  is_ok run.1 /\ size (issued demo_state run.2) = 4%N.
Proof.
have ok : is_ok (noised_batch demo [:: demo_sample] [:: 5] 4 demo_state).1.
  by vm_compute.
move=> run; rewrite /run; split; first exact: ok.
move: ok; case E: (noised_batch _ _ _ _ _) => [[dn|e] s'] // _.
by case: (noised_batch_replicas E) => _ _ ->; rewrite size_nseq.
Defined.

Lemma prepared_batch_size_witness :
  exists imgs ls dn s1,
    prepare demo [:: demo_sample] None 1 4 224 None demo_state
    = (Ok (imgs, ls, dn), s1) /\ size dn = 4%N.
Proof.
have ok : is_ok (prepare demo [:: demo_sample] None 1 4 224 None demo_state).1.
  by vm_compute.
move: ok; case E: (prepare _ _ _ _ _ _ _ _) => [[[[imgs ls] dn]|e] s1] // _.
exists imgs, ls, dn, s1; split; first by [].
by case: (prepared_batch_size E) => x [w [_ sz _ _]].
Defined.

Lemma wrong_label_count_witness :
  raised (interpret demo [:: demo_sample] (Some [:: 1%:Z; 2%:Z]) 1 4 2 224 None
            true None demo_state).1
  = Some "ValueError"%string.
Proof.
by rewrite (@wrong_label_count _ _ _ _ _ demo [:: demo_sample]
              [:: 1%:Z; 2%:Z] 1 4 2 224 None true None demo_state
              [:: 0%N] [:: demo_sample] 0%N 0%N erefl erefl erefl isT).
Defined.

Lemma empty_sample_witness :
  exists s',
    interpret demo [:: NdArray [:: 3%N; 0%N; 4%N] [::]] None 1 4 2 224 None
              false None demo_state
    = (Raise (ValueError "zero-size array to reduction operation maximum which has no identity"), s').
Proof.
case: (@empty_sample_is_rejected _ _ _ _ _ demo
         [:: NdArray [:: 3%N; 0%N; 4%N] [::]] None 7%:Z 1 4 2 224 None false None
         demo_state [:: 0%N] (NdArray [:: 3%N; 0%N; 4%N] [::]) 0%N
         erefl (fun=> isT) (fun w => ex_intro _ _ (ex_intro _ _ erefl)) erefl)
  => s' [E _].
by exists s'.
Defined.

Lemma draws_have_valid_scale_witness :
  (0 : rat) <= 1
  /\ all draw_scale_ok
         (issued demo_state
            (interpret demo [:: demo_sample] None 1 4 2 224 None true None
                       demo_state).2).
Proof.
split; first exact: ler01.
exact: (@draws_have_valid_scale _ _ _ _ _ demo [:: demo_sample] None 1 4 2 224
          None true None demo_state ler01).
Defined.

Lemma constant_sample_witness :
  std_of (1 : rat) (NdArray [:: 1%N; 1%N; 2%N] [:: 5; 5]) = Ok 0.
Proof.
apply: (@constant_sample_gets_no_noise _ 1 (NdArray [:: 1%N; 1%N; 2%N] [:: 5; 5]) 5).
  by [].
by vm_compute.
Defined.

Lemma chunk_memory_bound_witness :
  (size demo_batch = 5%N /\ (1 < 2)%N)
  /\ all (fun e => size (event_data e) <= 5 %/ 2 + 5 %% 2)%N
         (issued demo_state
            (gradients_of demo demo_batch [:: 3%:Z] 5 2 None demo_state).2).
Proof.
split; first by [].
case: (chunk_memory_bound demo [:: 3%:Z] None demo_state
         (erefl : size demo_batch = 5%N) (isT : (1 < 2)%N)) => bound _.
exact: bound.
Defined.

Lemma failed_call_keeps_labels_witness :
  let run := interpret demo [:: demo_sample; demo_sample] None 1 4 2 224 None
               true None demo_state in
  ~~ is_ok run.1 /\ self_labels run.2 = self_labels demo_state.
Proof.
have bad : ~~ is_ok (interpret demo [:: demo_sample; demo_sample] None 1 4 2
                       224 None true None demo_state).1.
  by vm_compute.
move=> run; rewrite /run; split; first exact: bad.
move: bad; case E: (interpret _ _ _ _ _ _ _ _ _ _ _) => [[avg|e] s'] // _.
exact: (failed_call_keeps_labels E).
Defined.

Lemma gradient_calls_count_witness :
  let run := interpret demo [:: demo_sample] None 1 4 2 224 None
               true None demo_state in
  is_ok run.1 /\ count is_gradient_call (issued demo_state run.2) = 2%N.
Proof.
have ok : is_ok (interpret demo [:: demo_sample] None 1 4 2 224 None
                   true None demo_state).1.
  by vm_compute.
move=> run; rewrite /run; split; first exact: ok.
move: ok; case E: (interpret _ _ _ _ _ _ _ _ _ _ _) => [[avg|e] s'] // _.
exact: (gradient_calls_count E).
Defined.

Lemma visualisation_at_index0_witness :
  is_ok (interpret demo [:: demo_sample] None 1 4 2 224 None true None
                   demo_state).1.
Proof.
have [imgs [ls [avg [i [s1 [Eg sz]]]]]] : exists imgs ls avg i s1,
    smooth_grad demo [:: demo_sample] None 1 4 2 224 None demo_state
    = (Ok (imgs, ls, avg, i), s1) /\ size imgs = 1%N.
  pose G := smooth_grad demo [:: demo_sample] None 1 4 2 224 None demo_state.
  pose imgs := if G.1 is Ok r then r.1.1.1 else [::].
  have okG : is_ok G.1 by vm_compute.
  have sz : size imgs == 1%N by vm_compute.
  move: okG sz; rewrite /imgs /G.
  case Eg: (smooth_grad _ _ _ _ _ _ _ _ _) => [[[[[imgs' ls] avg] i]|e] s1] //= _ /eqP sz.
  by exists imgs', ls, avg, i, s1.
case: (@visualisation_at_index0 _ _ _ _ _ demo [:: demo_sample] None 1 4 2 224
         None true None demo_state s1 imgs ls avg i None [::] (world s1)
         Eg sz erefl isT erefl (fun _ _ _ _ => isT) (fun _ _ => isT)
         (fun _ _ _ => isT)) => s' [-> _ _ _].
by [].
Defined.
